(** * PSGC graph import and hierarchy resolution

    A shallow embedding of the importer
    ([tasks/import_psgc_data_to_neo4j.ts]) and of the hierarchy route
    ([routes/api/hierarchy/[psgc_code].ts]), together with the part of
    the Cypher semantics their queries rely on: label scans, property
    comparison with null, cartesian [MATCH ... MATCH ... WHERE ... CREATE],
    [shortestPath] over a bounded variable-length pattern, [UNWIND] and
    [ORDER BY]. *)

From Stdlib Require Import String Ascii Bool Arith ZArith Lia.
From Stdlib Require Import List Permutation.
Import ListNotations.
Open Scope string_scope.
Open Scope list_scope.
Open Scope nat_scope.

(** ** Records of the data file: [src/types.ts] *)

Module Types.

Record PSGCData := {
  psgc_code : string;
  name : string;
  correspondence_code : string;
  geographic_level : string;
  old_names : option string;
  city_class : option string;
  income_classification : option string;
  urban_rural : option string;
  population_2020 : option Z;
  status : option string;
  region_code : string;
  province_code : string;
  municipality_code : string;
  barangay_code : string;
  admin_level : string;
  is_region : bool;
  is_province : bool;
  is_city_municipality : bool;
  is_barangay : bool;
  is_submunicipality : bool
}.

End Types.
Export Types.

(** ** Property values and the labelled property graph *)

Module Graph.

(** A property value as the driver stores it; [None] stands for
    JavaScript [null]/[undefined] and for Cypher [null]. *)
Inductive value :=
| VStr (s : string)
| VNum (z : Z)
| VBool (b : bool).

Definition value_eqb (a b : value) : bool :=
  match a, b with
  | VStr x, VStr y => String.eqb x y
  | VNum x, VNum y => Z.eqb x y
  | VBool x, VBool y => Bool.eqb x y
  | _, _ => false
  end.

(** The object assigned by [SET n = item]: keys in insertion order. *)
Definition Props := list (string * value).

Fixpoint get (o : Props) (key : string) : option value :=
  match o with
  | [] => None
  | (k, v) :: o' => if String.eqb k key then Some v else get o' key
  end.

(** [o[key] = v] on a JavaScript object. *)
Fixpoint set (o : Props) (key : string) (v : value) : Props :=
  match o with
  | [] => [(key, v)]
  | (k, w) :: o' =>
      if String.eqb k key then (k, v) :: o' else (k, w) :: set o' key v
  end.

Inductive Label :=
| Region | Province | CityMunicipality | Barangay | SubMunicipality.

Definition label_eqb (a b : Label) : bool :=
  match a, b with
  | Region, Region | Province, Province
  | CityMunicipality, CityMunicipality
  | Barangay, Barangay | SubMunicipality, SubMunicipality => true
  | _, _ => false
  end.

Definition label_name (l : Label) : string :=
  match l with
  | Region => "Region"
  | Province => "Province"
  | CityMunicipality => "CityMunicipality"
  | Barangay => "Barangay"
  | SubMunicipality => "SubMunicipality"
  end.

Inductive RelType :=
| HAS_PROVINCE | HAS_CITY_MUNICIPALITY | HAS_BARANGAY | HAS_SUBMUNICIPALITY.

Definition reltype_eqb (a b : RelType) : bool :=
  match a, b with
  | HAS_PROVINCE, HAS_PROVINCE
  | HAS_CITY_MUNICIPALITY, HAS_CITY_MUNICIPALITY
  | HAS_BARANGAY, HAS_BARANGAY
  | HAS_SUBMUNICIPALITY, HAS_SUBMUNICIPALITY => true
  | _, _ => false
  end.

Record Node := { label : Label; props : Props }.

(** A node is identified by its position in [nodes]; a relationship
    names its end points by position. *)
Record Rel := { rel_src : nat; rel_type : RelType; rel_dst : nat }.

Record Store := { nodes : list Node; rels : list Rel }.

Definition empty : Store := {| nodes := []; rels := [] |}.

Definition node_at (s : Store) (i : nat) : option Node := nth_error (nodes s) i.

Definition indexed (s : Store) : list (nat * Node) :=
  combine (seq 0 (length (nodes s))) (nodes s).

(** [MATCH (x:L)] *)
Definition match_label (s : Store) (l : Label) : list (nat * Node) :=
  filter (fun x => label_eqb (label (snd x)) l) (indexed s).

(** [a = b] and [a <> b] inside [WHERE]: a comparison with [null] is
    [null], and [WHERE] keeps a row only when its predicate is [true]. *)
Definition cy_eq (a b : option value) : bool :=
  match a, b with
  | Some x, Some y => value_eqb x y
  | _, _ => false
  end.

Definition cy_neq (a b : option value) : bool :=
  match a, b with
  | Some x, Some y => negb (value_eqb x y)
  | _, _ => false
  end.

Definition lit (s : string) : option value := Some (VStr s).

(** [MATCH (a:La) MATCH (b:Lb) WHERE w CREATE (a)-[:T]->(b)]: the
    relationships the statement creates, one per matching pair. *)
Definition match_create (s : Store) (la lb : Label)
    (w : Node -> Node -> bool) (t : RelType) : list Rel :=
  flat_map (fun a =>
    flat_map (fun b =>
      if w (snd a) (snd b)
      then [{| rel_src := fst a; rel_type := t; rel_dst := fst b |}]
      else [])
    (match_label s lb))
  (match_label s la).

Definition add_rels (s : Store) (new : list Rel) : Store :=
  {| nodes := nodes s; rels := rels s ++ new |}.

(** [UNWIND $items AS item CREATE (n:L) SET n = item] *)
Definition create_nodes (s : Store) (l : Label) (items : list Props) : Store :=
  {| nodes := nodes s ++ map (fun o => {| label := l; props := o |}) items;
     rels := rels s |}.

End Graph.
Export Graph.

(** ** The process state: the database and the console *)

Inductive LogEntry :=
| Log (msg : string)
| LogN (msg : string) (args : list nat)
| LogWarn (msg : string)
| LogError (msg : string).

Record World := { db : Store; console : list LogEntry }.

Definition console_log (e : LogEntry) (w : World) : World :=
  {| db := db w; console := console w ++ [e] |}.

Definition runWrite (f : Store -> Store) (w : World) : World :=
  {| db := f (db w); console := console w |}.

(** [src/neo4j.ts]: [clearDatabase] runs [MATCH (n) DETACH DELETE n]. *)
Definition clearDatabase (w : World) : World :=
  console_log (Log "Database cleared")
    (runWrite (fun _ => empty) (console_log (Log "Clearing database...") w)).

(** [createIndexes] only declares indexes: the graph is unchanged. *)
Definition createIndexes (w : World) : World :=
  console_log (Log "Indexes created")
    (console_log (Log "Creating indexes...") w).

(** ** The importer: [tasks/import_psgc_data_to_neo4j.ts] *)

Module Importer.

Definition BATCH_SIZE : nat := 500.

(** An element of the arrays handed to [importBatch]: a record, and for
    the cities the [type] key that [citiesWithType] adds. *)
Record Item := { item_data : PSGCData; item_type : option string }.

Definition plain (d : PSGCData) : Item :=
  {| item_data := d; item_type := None |}.

Definition ostr (o : option string) : option value := option_map VStr o.

(** [item[prop]]; [None] is [null] or [undefined]. *)
Definition item_get (it : Item) (prop : string) : option value :=
  let d := item_data it in
  if String.eqb prop "psgc_code" then Some (VStr (psgc_code d))
  else if String.eqb prop "name" then Some (VStr (name d))
  else if String.eqb prop "correspondence_code"
       then Some (VStr (correspondence_code d))
  else if String.eqb prop "geographic_level"
       then Some (VStr (geographic_level d))
  else if String.eqb prop "old_names" then ostr (old_names d)
  else if String.eqb prop "city_class" then ostr (city_class d)
  else if String.eqb prop "income_classification"
       then ostr (income_classification d)
  else if String.eqb prop "urban_rural" then ostr (urban_rural d)
  else if String.eqb prop "population_2020"
       then option_map VNum (population_2020 d)
  else if String.eqb prop "status" then ostr (status d)
  else if String.eqb prop "region_code" then Some (VStr (region_code d))
  else if String.eqb prop "province_code" then Some (VStr (province_code d))
  else if String.eqb prop "municipality_code"
       then Some (VStr (municipality_code d))
  else if String.eqb prop "barangay_code" then Some (VStr (barangay_code d))
  else if String.eqb prop "admin_level" then Some (VStr (admin_level d))
  else if String.eqb prop "is_region" then Some (VBool (is_region d))
  else if String.eqb prop "is_province" then Some (VBool (is_province d))
  else if String.eqb prop "is_city_municipality"
       then Some (VBool (is_city_municipality d))
  else if String.eqb prop "is_barangay" then Some (VBool (is_barangay d))
  else if String.eqb prop "is_submunicipality"
       then Some (VBool (is_submunicipality d))
  else if String.eqb prop "type" then ostr (item_type it)
  else None.

(** The callback of [items.map] in [importBatch]: copy the listed
    properties that are neither [null] nor [undefined]. *)
Definition filtered (properties : list string) (it : Item) : Props :=
  fold_left
    (fun acc prop =>
       match item_get it prop with
       | Some v => set acc prop v
       | None => acc
       end)
    properties [].

Definition importBatch (items : list Item) (nodeType : Label)
    (properties : list string) (w : World) : World :=
  match items with
  | [] => w
  | _ =>
      let batchedItems := map (filtered properties) items in
      runWrite (fun s => create_nodes s nodeType batchedItems) w
  end.

(** *** The five statements of [createRelationships] *)

Definition prop (n : Node) (key : string) : option value := get (props n) key.

Definition where_region_province (r p : Node) : bool :=
  cy_eq (prop p "region_code") (prop r "region_code")
  && cy_neq (prop p "province_code") (lit "000")
  && cy_eq (prop r "province_code") (lit "000").

Definition where_province_city (p c : Node) : bool :=
  cy_eq (prop c "region_code") (prop p "region_code")
  && cy_eq (prop c "province_code") (prop p "province_code")
  && cy_eq (prop p "municipality_code") (lit "00")
  && cy_neq (prop c "municipality_code") (lit "00").

Definition where_city_barangay (c b : Node) : bool :=
  cy_eq (prop b "region_code") (prop c "region_code")
  && cy_eq (prop b "province_code") (prop c "province_code")
  && cy_eq (prop b "municipality_code") (prop c "municipality_code")
  && cy_eq (prop c "barangay_code") (lit "000")
  && cy_neq (prop b "barangay_code") (lit "000").

Definition where_city_submun (c s : Node) : bool :=
  cy_eq (prop s "region_code") (prop c "region_code")
  && cy_eq (prop s "province_code") (prop c "province_code")
  && cy_eq (prop s "municipality_code") (prop c "municipality_code").

(** [MATCH (r:Region {region_code: '13'})] and [WHERE c.region_code = '13']. *)
Definition where_ncr (r c : Node) : bool :=
  cy_eq (prop r "region_code") (lit "13")
  && cy_eq (prop c "region_code") (lit "13").

(** The statements in the order [createRelationships] issues them. *)
Inductive Pass :=
| RegionProvince | ProvinceCity | CityBarangay | CitySubMun | NcrCity.

Definition pass_parent (p : Pass) : Label :=
  match p with
  | RegionProvince => Region
  | ProvinceCity => Province
  | CityBarangay => CityMunicipality
  | CitySubMun => CityMunicipality
  | NcrCity => Region
  end.

Definition pass_child (p : Pass) : Label :=
  match p with
  | RegionProvince => Province
  | ProvinceCity => CityMunicipality
  | CityBarangay => Barangay
  | CitySubMun => SubMunicipality
  | NcrCity => CityMunicipality
  end.

Definition pass_where (p : Pass) : Node -> Node -> bool :=
  match p with
  | RegionProvince => where_region_province
  | ProvinceCity => where_province_city
  | CityBarangay => where_city_barangay
  | CitySubMun => where_city_submun
  | NcrCity => where_ncr
  end.

Definition pass_type (p : Pass) : RelType :=
  match p with
  | RegionProvince => HAS_PROVINCE
  | ProvinceCity => HAS_CITY_MUNICIPALITY
  | CityBarangay => HAS_BARANGAY
  | CitySubMun => HAS_SUBMUNICIPALITY
  | NcrCity => HAS_CITY_MUNICIPALITY
  end.

Definition pass_log (p : Pass) : string :=
  match p with
  | RegionProvince => "  Creating Region -> Province relationships..."
  | ProvinceCity => "  Creating Province -> CityMunicipality relationships..."
  | CityBarangay => "  Creating CityMunicipality -> Barangay relationships..."
  | CitySubMun =>
      "  Creating CityMunicipality -> SubMunicipality relationships..."
  | NcrCity => "  Handling NCR special case (Region acts as Province)..."
  end.

(** What one statement creates, read off the graph it runs on. *)
Definition pass_rels (p : Pass) (s : Store) : list Rel :=
  match_create s (pass_parent p) (pass_child p) (pass_where p) (pass_type p).

Definition run_pass (p : Pass) (s : Store) : Store := add_rels s (pass_rels p s).

Definition step_pass (p : Pass) (w : World) : World :=
  runWrite (run_pass p) (console_log (Log (pass_log p)) w).

Definition createRelationships (w : World) : World :=
  let w := console_log (Log "Creating relationships...") w in
  let w := step_pass RegionProvince w in
  let w := step_pass ProvinceCity w in
  let w := step_pass CityBarangay w in
  let w := step_pass CitySubMun w in
  let w := step_pass NcrCity w in
  console_log (Log "Relationships created") w.

(** The five statements issued in an arbitrary order. *)
Definition run_passes (order : list Pass) (s : Store) : Store :=
  fold_left (fun acc p => run_pass p acc) order s.

Definition all_passes : list Pass :=
  [RegionProvince; ProvinceCity; CityBarangay; CitySubMun; NcrCity].

(** *** [main]: the callbacks of [data.filter] that select the records of
    each kind *)

Definition regions_filter (d : PSGCData) : bool :=
  is_region d && String.eqb (province_code d) "000".

Definition provinces_filter (d : PSGCData) : bool :=
  is_province d && negb (String.eqb (province_code d) "000")
  && String.eqb (municipality_code d) "00".

Definition cities_filter (d : PSGCData) : bool :=
  is_city_municipality d
  || (negb (String.eqb (municipality_code d) "00")
      && String.eqb (barangay_code d) "000"
      && negb (is_submunicipality d)).

Definition barangays_filter (d : PSGCData) : bool := is_barangay d.

Definition submuns_filter (d : PSGCData) : bool :=
  String.eqb (geographic_level d) "SubMun".

Definition regionProps : list string :=
  ["psgc_code"; "name"; "correspondence_code"; "geographic_level";
   "population_2020"; "region_code"; "province_code"; "municipality_code";
   "barangay_code"].

Definition provinceProps : list string :=
  ["psgc_code"; "name"; "correspondence_code"; "geographic_level";
   "population_2020"; "region_code"; "province_code"; "municipality_code";
   "barangay_code"].

Definition cityProps : list string :=
  ["psgc_code"; "name"; "correspondence_code"; "geographic_level";
   "city_class"; "income_classification"; "population_2020"; "region_code";
   "province_code"; "municipality_code"; "barangay_code"; "type"].

Definition barangayProps : list string :=
  ["psgc_code"; "name"; "correspondence_code"; "geographic_level";
   "urban_rural"; "population_2020"; "region_code"; "province_code";
   "municipality_code"; "barangay_code"].

(** The callback of [cities.map] that builds [citiesWithType]. *)
Definition withType (c : PSGCData) : Item :=
  {| item_data := c;
     item_type := Some (if String.eqb (geographic_level c) "City"
                        then "city" else "municipality") |}.

(** [items.slice(i, j)] *)
Definition slice {A} (l : list A) (i j : nat) : list A :=
  firstn (j - i) (skipn i l).

(** [for (let i = 0; i < items.length; i += BATCH_SIZE) { ... }]; the
    loop runs at most [items.length] times, which is the fuel [import_all]
    gives it. *)
Fixpoint import_loop (fuel i : nat) (items : list Item) (nodeType : Label)
    (properties : list string) (what : string) (w : World) : World :=
  match fuel with
  | 0 => w
  | S fuel' =>
      if i <? length items then
        let batch := slice items i (i + BATCH_SIZE) in
        let w := importBatch batch nodeType properties w in
        let w := console_log
                   (LogN ("  Imported {}/{} " ++ what)%string
                         [Nat.min (i + BATCH_SIZE) (length items);
                          length items]) w in
        import_loop fuel' (i + BATCH_SIZE) items nodeType properties what w
      else w
  end.

Definition import_all (items : list Item) (nodeType : Label)
    (properties : list string) (what : string) (w : World) : World :=
  import_loop (length items) 0 items nodeType properties what
    (console_log (Log ("Importing " ++ what ++ "...")%string) w).

(** The verification query that ends [main]: each [WITH ..., count(x)]
    that follows a [MATCH] groups by the carried columns, so the query
    returns a row only when provinces, cities and barangays all exist. *)
Definition count_label (s : Store) (l : Label) : nat := length (match_label s l).

Definition count_type (s : Store) (t : string) : nat :=
  length (filter (fun x => cy_eq (prop (snd x) "type") (lit t))
                 (match_label s CityMunicipality)).

Definition log_stats (w : World) : World :=
  let s := db w in
  if (count_label s Province =? 0) || (count_label s CityMunicipality =? 0)
     || (count_label s Barangay =? 0)
  then w
  else
    let w := console_log (Log "Database statistics:") w in
    let w := console_log (LogN "  Regions:" [count_label s Region]) w in
    let w := console_log (LogN "  Provinces:" [count_label s Province]) w in
    let w := console_log (LogN "  Cities:" [count_type s "city"]) w in
    let w := console_log
               (LogN "  Municipalities:" [count_type s "municipality"]) w in
    let w := console_log
               (LogN "  Total Cities/Municipalities:"
                     [count_label s CityMunicipality]) w in
    console_log (LogN "  Barangays:" [count_label s Barangay]) w.

(** The body of [main]'s [try] from [if (clearFlag)] on. *)
Definition import_data (clearFlag : bool) (data : list PSGCData) (w : World)
    : World :=
  let w := if clearFlag then clearDatabase w else w in
  let w := createIndexes w in
  let regions := filter regions_filter data in
  let provinces := filter provinces_filter data in
  let cities := filter cities_filter data in
  let barangays := filter barangays_filter data in
  let submuns := filter submuns_filter data in
  let w := console_log (LogN "Found {} regions" [length regions]) w in
  let w := console_log (LogN "Found {} provinces" [length provinces]) w in
  let w := console_log
             (LogN "Found {} cities/municipalities" [length cities]) w in
  let w := console_log (LogN "Found {} barangays" [length barangays]) w in
  let w := console_log
             (LogN "Found {} sub-municipalities" [length submuns]) w in
  let w := import_all (map plain regions) Region regionProps "regions" w in
  let w := import_all (map plain provinces) Province provinceProps
             "provinces" w in
  let citiesWithType := map withType cities in
  let w := import_all citiesWithType CityMunicipality cityProps
             "cities/municipalities" w in
  let w := import_all (map plain barangays) Barangay barangayProps
             "barangays" w in
  let w := import_all (map plain submuns) SubMunicipality barangayProps
             "sub-municipalities" w in
  let w := console_log (Log "Creating relationships...") w in
  let w := createRelationships w in
  let w := console_log (Log "Import completed successfully!") w in
  let w := console_log (Log "Verifying import...") w in
  log_stats w.

Inductive Exit := Completed | ExitCode (n : nat).

(** *** Calls that throw

    The functions above describe a run in which every call to the
    driver returns.  Every call may throw; the [try_] functions below
    follow the same code on a driver that may.  The calls of a run are
    numbered in the order they are made, and the driver's answer to
    each is given from outside. *)

Inductive Answer :=
| Went       (* the call returned *)
| Threw      (* the call threw and the statement had no effect *)
| ThrewLate. (* the call threw after the statement had taken effect *)

(** How a step ends: normally, with the number of calls made so far,
    or by a throw. *)
Inductive Outcome :=
| Done (w : World) (calls : nat)
| Thrown (w : World).

(** A step, from the number of calls made before it. *)
Definition Try : Type := nat -> World -> Outcome.

Definition ret : Try := fun n w => Done w n.

Definition throw : Try := fun _ w => Thrown w.

Definition andThen (a b : Try) : Try :=
  fun n w =>
    match a n w with
    | Done w' n' => b n' w'
    | Thrown w' => Thrown w'
    end.

Notation "a ;; b" := (andThen a b) (at level 61, right associativity).

Definition say (e : LogEntry) : Try := fun n w => Done (console_log e w) n.

(** A string as JavaScript has it: its UTF-16 code units. *)
Definition Line : Type := list N.

(** What [JSON.parse] returns: [null], or a value that is read as a
    [PSGCData]. *)
Inductive Parsed := Null | Value (d : PSGCData).

(** The code points [trim] strips: ECMAScript's WhiteSpace (tab, VT,
    FF, the byte order mark U+FEFF and the space separators) and
    LineTerminator (LF, CR, U+2028, U+2029). *)
Definition is_space (c : N) : bool :=
  (existsb (N.eqb c)
     [9; 10; 11; 12; 13; 32; 160; 5760; 8232; 8233; 8239; 8287; 12288;
      65279]
   || ((8192 <=? c) && (c <=? 8202)))%N.

(** [line.trim()] is the empty string. *)
Definition blank (line : Line) : bool := forallb is_space line.

(** The records of [data]; the first [data.filter] of [main] throws a
    [TypeError] when an element is [null]. *)
Fixpoint records (data : list Parsed) : option (list PSGCData) :=
  match data with
  | [] => Some []
  | Null :: _ => None
  | Value d :: rest =>
      match records rest with
      | Some ds => Some (d :: ds)
      | None => None
      end
  end.

Section Main.

(** [JSON.parse]; [None] when it throws. *)
Variable JSON_parse : Line -> option Parsed.

(** The driver's answer to the [k]-th call of the run. *)
Variable driver : nat -> Answer.

Fixpoint parse_all (lines : list Line) : option (list Parsed) :=
  match lines with
  | [] => Some []
  | l :: rest =>
      match JSON_parse l with
      | None => None
      | Some d =>
          match parse_all rest with
          | None => None
          | Some ds => Some (d :: ds)
          end
      end
  end.

(** [readJSONLFile]: [file] holds the lines of the file,
    [text.trim().split("\n")], and is [None] when [Deno.readTextFile]
    throws. *)
Definition readJSONLFile (file : option (list Line))
    : option (list Parsed) :=
  match file with
  | Some lines => parse_all (filter (fun line => negb (blank line)) lines)
  | None => None
  end.

(** [runWrite] on a driver that may throw. *)
Definition try_runWrite (f : Store -> Store) : Try :=
  fun n w =>
    match driver n with
    | Went => Done (runWrite f w) (S n)
    | Threw => Thrown w
    | ThrewLate => Thrown (runWrite f w)
    end.

Definition try_clearDatabase : Try :=
  say (Log "Clearing database...") ;;
  try_runWrite (fun _ => empty) ;;
  say (Log "Database cleared").

(** One turn of the loop of [createIndexes]: what [runWrite] throws is
    caught and reported with [console.warn]. *)
Definition try_index : Try :=
  fun n w =>
    match driver n with
    | Went => Done w (S n)
    | _ => Done (console_log (LogWarn "Index might already exist: {}") w)
                (S n)
    end.

Fixpoint times (k : nat) (t : Try) : Try :=
  match k with
  | 0 => ret
  | S k' => t ;; times k' t
  end.

(** [createIndexes] declares nine indexes. *)
Definition try_createIndexes : Try :=
  say (Log "Creating indexes...") ;;
  times 9 try_index ;;
  say (Log "Indexes created").

Definition try_importBatch (items : list Item) (nodeType : Label)
    (properties : list string) : Try :=
  match items with
  | [] => ret
  | _ =>
      let batchedItems := map (filtered properties) items in
      try_runWrite (fun s => create_nodes s nodeType batchedItems)
  end.

Fixpoint try_import_loop (fuel i : nat) (items : list Item)
    (nodeType : Label) (properties : list string) (what : string) : Try :=
  match fuel with
  | 0 => ret
  | S fuel' =>
      if i <? length items then
        let batch := slice items i (i + BATCH_SIZE) in
        try_importBatch batch nodeType properties ;;
        say (LogN ("  Imported {}/{} " ++ what)%string
                  [Nat.min (i + BATCH_SIZE) (length items); length items]) ;;
        try_import_loop fuel' (i + BATCH_SIZE) items nodeType properties what
      else ret
  end.

Definition try_import_all (items : list Item) (nodeType : Label)
    (properties : list string) (what : string) : Try :=
  say (Log ("Importing " ++ what ++ "...")%string) ;;
  try_import_loop (length items) 0 items nodeType properties what.

Definition try_step_pass (p : Pass) : Try :=
  say (Log (pass_log p)) ;; try_runWrite (run_pass p).

Definition try_createRelationships : Try :=
  say (Log "Creating relationships...") ;;
  try_step_pass RegionProvince ;;
  try_step_pass ProvinceCity ;;
  try_step_pass CityBarangay ;;
  try_step_pass CitySubMun ;;
  try_step_pass NcrCity ;;
  say (Log "Relationships created").

(** The verification query and the report of its row. *)
Definition try_log_stats : Try :=
  fun n w =>
    match driver n with
    | Went => Done (log_stats w) (S n)
    | _ => Thrown w
    end.

(** The body of [main]'s [try] from [if (clearFlag)] on, on a driver
    that may throw. *)
Definition try_import_data (clearFlag : bool) (data : list Parsed) : Try :=
  (if clearFlag then try_clearDatabase else ret) ;;
  try_createIndexes ;;
  match records data with
  | None => throw
  | Some data =>
      let regions := filter regions_filter data in
      let provinces := filter provinces_filter data in
      let cities := filter cities_filter data in
      let barangays := filter barangays_filter data in
      let submuns := filter submuns_filter data in
      say (LogN "Found {} regions" [length regions]) ;;
      say (LogN "Found {} provinces" [length provinces]) ;;
      say (LogN "Found {} cities/municipalities" [length cities]) ;;
      say (LogN "Found {} barangays" [length barangays]) ;;
      say (LogN "Found {} sub-municipalities" [length submuns]) ;;
      try_import_all (map plain regions) Region regionProps "regions" ;;
      try_import_all (map plain provinces) Province provinceProps
        "provinces" ;;
      try_import_all (map withType cities) CityMunicipality cityProps
        "cities/municipalities" ;;
      try_import_all (map plain barangays) Barangay barangayProps
        "barangays" ;;
      try_import_all (map plain submuns) SubMunicipality barangayProps
        "sub-municipalities" ;;
      say (Log "Creating relationships...") ;;
      try_createRelationships ;;
      say (Log "Import completed successfully!") ;;
      say (Log "Verifying import...") ;;
      try_log_stats
  end.

(** [main]: anything thrown inside [try] is reported and ends the
    process with exit code 1, without running [finally]; after a
    normal end [finally] calls [closeDriver], and what that throws is
    not caught, which ends the process with exit code 1 as well. *)
Definition main (clearFlag : bool) (file : option (list Line)) (w : World)
    : World * Exit :=
  let w := console_log (Log "Loading PSGC data from psa/psgc_data.jsonl...") w in
  match readJSONLFile file with
  | Some data =>
      let w := console_log (LogN "Loaded {} records" [length data]) w in
      match try_import_data clearFlag data 0 w with
      | Done w n =>
          match driver n with
          | Went => (w, Completed)
          | _ => (w, ExitCode 1)
          end
      | Thrown w => (console_log (LogError "Import failed:") w, ExitCode 1)
      end
  | None => (console_log (LogError "Import failed:") w, ExitCode 1)
  end.

End Main.

End Importer.
Export Importer.

(** ** The hierarchy route: [routes/api/hierarchy/[psgc_code].ts] *)

Module Resolver.

(** The end points of the relationships that leave node [i]. *)
Definition succs (s : Store) (i : nat) : list nat :=
  map rel_dst (filter (fun e => rel_src e =? i) (rels s)).

(** [(i)-[*k]->()]: the node sequences of the directed walks of exactly
    [k] relationships that start at [i], any relationship type. *)
Fixpoint walks (s : Store) (k i : nat) : list (list nat) :=
  match k with
  | 0 => [[i]]
  | S k' => flat_map (fun j => map (cons i) (walks s k' j)) (succs s i)
  end.

Definition ends_at (t : nat) (p : list nat) : bool := last p 0 =? t.

Definition paths (s : Store) (k r t : nat) : list (list nat) :=
  filter (ends_at t) (walks s k r).

Fixpoint first_path (s : Store) (lens : list nat) (r t : nat)
    : option (list nat) :=
  match lens with
  | [] => None
  | k :: lens' =>
      match paths s k r t with
      | p :: _ => Some p
      | [] => first_path s lens' r t
      end
  end.

(** [shortestPath((r)-[*0..4]->(target))]: the nodes of a path of least
    length among those of 0 to 4 relationships, [None] when there is
    none.  With a lower bound of 0 the pattern matches the empty path
    when [r] is [target].  A walk of least length repeats no
    relationship, so the walks above are the paths Cypher considers. *)
Definition shortestPath (s : Store) (r t : nat) : option (list nat) :=
  first_path s (seq 0 5) r t.

(** The [CASE] expression that computes [sortOrder]. *)
Definition sortOrder (n : Node) : nat :=
  match label n with
  | Region => 0
  | Province => 1
  | CityMunicipality => 2
  | Barangay => 3
  | SubMunicipality => 3
  end.

(** [ORDER BY sortOrder]: rows with equal keys keep their order. *)
Fixpoint insert_by {A} (key : A -> nat) (x : A) (l : list A) : list A :=
  match l with
  | [] => [x]
  | y :: l' =>
      if key x <=? key y then x :: y :: l' else y :: insert_by key x l'
  end.

Fixpoint order_by {A} (key : A -> nat) (l : list A) : list A :=
  match l with
  | [] => []
  | x :: l' => insert_by key x (order_by key l')
  end.

(** [MATCH (target {psgc_code: $psgc_code})] *)
Definition match_code (s : Store) (code : string) : list (nat * Node) :=
  filter (fun x => cy_eq (prop (snd x) "psgc_code") (lit code)) (indexed s).

(** [nodes(path)]: the nodes at the positions a path goes through. *)
Definition path_nodes (s : Store) (p : list nat) : list Node :=
  flat_map (fun i => match node_at s i with Some n => [n] | None => [] end) p.

(** The rows after [UNWIND pathNodes as node ... ORDER BY sortOrder]. *)
Definition hierarchy_nodes (s : Store) (code : string) : list Node :=
  order_by sortOrder
    (flat_map (fun target =>
       flat_map (fun r =>
         match shortestPath s (fst r) (fst target) with
         | Some p => path_nodes s p
         | None => []
         end)
       (match_label s Region))
     (match_code s code)).

(** One record of the [RETURN] clause. *)
Record Row := {
  row_type : string;
  row_psgc_code : option value;
  row_name : option value;
  row_population : option value;
  row_city_class : option value;
  row_income_classification : option value;
  row_urban_rural : option value
}.

Definition row_of (n : Node) : Row :=
  {| row_type := label_name (label n);
     row_psgc_code := prop n "psgc_code";
     row_name := prop n "name";
     row_population := prop n "population_2020";
     row_city_class := prop n "city_class";
     row_income_classification := prop n "income_classification";
     row_urban_rural := prop n "urban_rural" |}.

Definition hierarchy_query (s : Store) (code : string) : list Row :=
  map row_of (hierarchy_nodes s code).

(** The database as the route sees it: [runQuery] throws when the
    driver cannot be reached. *)
Inductive Neo4j := Online (s : Store) | Offline.

Definition runQuery {A} (q : Store -> A) (c : Neo4j) : option A :=
  match c with
  | Online s => Some (q s)
  | Offline => None
  end.

Inductive Body :=
| HierarchyBody (psgc_code : string) (hierarchy : list Row)
| ErrorBody (error : string).

Record Response := { resp_status : nat; resp_body : Body }.

(** [handler.GET] *)
Definition GET (c : Neo4j) (psgc_code : string) : Response :=
  match runQuery (fun s => hierarchy_query s psgc_code) c with
  | Some hierarchy =>
      if length hierarchy =? 0
      then {| resp_status := 404; resp_body := ErrorBody "Location not found" |}
      else {| resp_status := 200;
              resp_body := HierarchyBody psgc_code hierarchy |}
  | None =>
      {| resp_status := 500;
         resp_body := ErrorBody "Failed to fetch hierarchy" |}
  end.

End Resolver.
Export Resolver.

(** ** Sample records *)

Module Samples.

Definition record (code level : string) (rr ppp mm bbb : string)
    (reg prov city bgy sub : bool) : PSGCData :=
  {| psgc_code := code; name := code; correspondence_code := code;
     geographic_level := level; old_names := None; city_class := None;
     income_classification := None; urban_rural := None;
     population_2020 := None; status := None;
     region_code := rr; province_code := ppp; municipality_code := mm;
     barangay_code := bbb; admin_level := level;
     is_region := reg; is_province := prov; is_city_municipality := city;
     is_barangay := bgy; is_submunicipality := sub |}.

Definition region03 := record "0300000000" "Reg" "03" "000" "00" "000" true false false false false.
Definition bulacan := record "0301400000" "Prov" "03" "014" "00" "000" false true false false false.
Definition angat := record "0301401000" "Mun" "03" "014" "01" "000" false false true false false.
Definition laog := record "0301401007" "Bgy" "03" "014" "01" "007" false false false true false.
Definition ncr := record "1300000000" "Reg" "13" "000" "00" "000" true false false false false.
Definition manila := record "1380600000" "City" "13" "806" "00" "000" false false true false false.

Definition region11 := record "1100000000" "Reg" "11" "000" "00" "000" true false false false false.
Definition davao := record "1130700000" "City" "11" "307" "00" "000" false false true false false.
Definition ncr_province := record "1307400000" "Prov" "13" "074" "00" "000" false true false false false.
Definition ncr_town := record "1307401000" "Mun" "13" "074" "01" "000" false false true false false.
Definition district := record "1303900000" "Dist" "13" "039" "00" "000" false false false false false.

Definition angat_district := record "0301401500" "SubMun" "03" "014" "01" "500" false false false false true.
Definition tondo := record "1380601000" "SubMun" "13" "806" "01" "000" false false false false false.

Definition w0 : World := {| db := empty; console := [] |}.

(** A small data file imported with [--clear]. *)
Definition luzon : Store :=
  db (import_data true
        [region03; bulacan; angat; laog; angat_district; ncr; manila] w0).

End Samples.
Import Samples.

(** ** Notions used to state the properties *)

Module Notions.

(** The kinds whose filter in [main] selects the record. *)
Definition kinds (d : PSGCData) : list Label :=
  (if regions_filter d then [Region] else [])
  ++ (if provinces_filter d then [Province] else [])
  ++ (if cities_filter d then [CityMunicipality] else [])
  ++ (if barangays_filter d then [Barangay] else [])
  ++ (if submuns_filter d then [SubMunicipality] else []).

(** The node [main] creates for a record imported under a kind. *)
Definition entity (l : Label) (d : PSGCData) : Node :=
  match l with
  | Region => {| label := Region; props := filtered regionProps (plain d) |}
  | Province =>
      {| label := Province; props := filtered provinceProps (plain d) |}
  | CityMunicipality =>
      {| label := CityMunicipality;
         props := filtered cityProps (withType d) |}
  | Barangay =>
      {| label := Barangay; props := filtered barangayProps (plain d) |}
  | SubMunicipality =>
      {| label := SubMunicipality;
         props := filtered barangayProps (plain d) |}
  end.

(** The nodes of a cleared and re-imported database, in import order. *)
Definition entities (data : list PSGCData) : list Node :=
  map (entity Region) (filter regions_filter data)
  ++ map (entity Province) (filter provinces_filter data)
  ++ map (entity CityMunicipality) (filter cities_filter data)
  ++ map (entity Barangay) (filter barangays_filter data)
  ++ map (entity SubMunicipality) (filter submuns_filter data).

(** The graph [main --clear] leaves behind. *)
Definition built (data : list PSGCData) : Store :=
  let s := {| nodes := entities data; rels := [] |} in
  {| nodes := entities data;
     rels := flat_map (fun p => pass_rels p s) all_passes |}.

(** Segments of the width and alphabet the code layout RRPPPMMBBB
    prescribes; the importer itself never tests this. *)
Definition is_digit (c : ascii) : bool :=
  let n := nat_of_ascii c in (48 <=? n) && (n <=? 57).

Fixpoint all_digits (s : string) : bool :=
  match s with
  | EmptyString => true
  | String c rest => is_digit c && all_digits rest
  end.

Definition segment_ok (width : nat) (s : string) : bool :=
  (String.length s =? width) && all_digits s.

Definition well_formed (d : PSGCData) : bool :=
  segment_ok 2 (region_code d) && segment_ok 3 (province_code d)
  && segment_ok 2 (municipality_code d) && segment_ok 3 (barangay_code d).

(** A record that carries exactly one kind tag, the code shape of that
    kind, and the level ["SubMun"] exactly when tagged sub-municipality. *)
Definition submun_level (d : PSGCData) : bool :=
  String.eqb (geographic_level d) "SubMun".

Definition consistent (d : PSGCData) : bool :=
  match is_region d, is_province d, is_city_municipality d, is_barangay d,
        is_submunicipality d with
  | true, false, false, false, false =>
      String.eqb (province_code d) "000"
      && String.eqb (municipality_code d) "00" && negb (submun_level d)
  | false, true, false, false, false =>
      negb (String.eqb (province_code d) "000")
      && String.eqb (municipality_code d) "00" && negb (submun_level d)
  | false, false, true, false, false => negb (submun_level d)
  | false, false, false, true, false =>
      negb (String.eqb (barangay_code d) "000") && negb (submun_level d)
  | false, false, false, false, true => submun_level d
  | _, _, _, _, _ => false
  end.

(** The kind a consistent record is tagged with. *)
Definition tagged_kind (d : PSGCData) : Label :=
  if is_region d then Region
  else if is_province d then Province
  else if is_city_municipality d then CityMunicipality
  else if is_barangay d then Barangay
  else SubMunicipality.

(** The entries written with [console.error]. *)
Definition is_error (e : LogEntry) : bool :=
  match e with
  | LogError _ => true
  | _ => false
  end.

Definition errors (w : World) : list LogEntry := filter is_error (console w).

(** A step that, when it ends normally, has changed the graph by [g],
    and that writes nothing with [console.error] however it ends. *)
Definition tracks (t : Try) (g : Store -> Store) : Prop :=
  forall n w,
    match t n w with
    | Done w' _ => db w' = g (db w) /\ errors w' = errors w
    | Thrown w' => errors w' = errors w
    end.


(** The number of relationships that end at node [i]. *)
Definition in_degree (s : Store) (i : nat) : nat :=
  length (filter (fun e => rel_dst e =? i) (rels s)).

(** [a] is a parent of [b] under one of the five statements. *)
Definition rule_matches (p : Pass) (a b : Node) : bool :=
  label_eqb (label a) (pass_parent p) && label_eqb (label b) (pass_child p)
  && pass_where p a b.

Definition parent_rule (a b : Node) : bool :=
  existsb (fun p => rule_matches p a b) all_passes.

(** The nodes that match [b] as a parent. *)
Definition candidates (s : Store) (b : Node) : list (nat * Node) :=
  filter (fun x => parent_rule (snd x) b) (indexed s).

Definition tree_invariant (s : Store) : Prop :=
  forall i n, node_at s i = Some n -> label n <> Region -> in_degree s i = 1.

Definition count_rels (t : RelType) (l : list Rel) : nat :=
  length (filter (fun e => reltype_eqb (rel_type e) t) l).

(** Directed walks as a predicate: consecutive nodes are joined by a
    relationship. *)
Definition edge (s : Store) (i j : nat) : Prop := In j (succs s i).

Fixpoint is_walk (s : Store) (p : list nat) : Prop :=
  match p with
  | [] => False
  | i :: q =>
      match q with
      | [] => True
      | j :: _ => edge s i j /\ is_walk s q
      end
  end.

(** [r] reaches [t] by at most [n] relationships. *)
Definition reaches (s : Store) (n r t : nat) : Prop :=
  exists p, is_walk s p /\ hd 0 p = r /\ last p 0 = t /\ length p <= S n.

Definition code_of (n : Node) : option value := prop n "psgc_code".

(** No two nodes of the graph carry the same code. *)
Definition unique_codes (s : Store) : Prop :=
  forall i j a b, node_at s i = Some a -> node_at s j = Some b ->
    code_of a = code_of b -> i = j.

(** No two Region nodes carry the same region segment. *)
Definition unique_regions (s : Store) : Prop :=
  forall i j a b, node_at s i = Some a -> node_at s j = Some b ->
    label a = Region -> label b = Region ->
    prop a "region_code" = prop b "region_code" -> i = j.

(** Node [i] is the only node that carries [code]. *)
Definition sole_bearer (s : Store) (code : string) (i : nat) : Prop :=
  forall j m, node_at s j = Some m -> code_of m = Some (VStr code) -> j = i.

Fixpoint increasing (l : list nat) : Prop :=
  match l with
  | [] => True
  | x :: q =>
      match q with
      | [] => True
      | y :: _ => x < y /\ increasing q
      end
  end.

Fixpoint nondecreasing (l : list nat) : Prop :=
  match l with
  | [] => True
  | x :: q =>
      match q with
      | [] => True
      | y :: _ => x <= y /\ nondecreasing q
      end
  end.

(** What the resolver is expected to return for the entity [e]. *)
Definition resolves_to_chain (s : Store) (code : string) (e : Node) : Prop :=
  let h := hierarchy_nodes s code in
  (exists r, hd_error h = Some r /\ label r = Region)
  /\ last h e = e /\ h <> []
  /\ nondecreasing (map sortOrder h)
  /\ NoDup (map row_psgc_code (hierarchy_query s code)).

(** Every relationship of the graph is one that a statement of
    [createRelationships] creates on the nodes of the graph. *)
Definition linked (s : Store) : Prop :=
  forall e, In e (rels s) -> exists p, In e (pass_rels p s).

Definition region_of (s : Store) (i : nat) : option value :=
  match node_at s i with
  | Some n => prop n "region_code"
  | None => None
  end.

Definition rank_of (s : Store) (i : nat) : nat :=
  match node_at s i with
  | Some n => sortOrder n
  | None => 0
  end.

(** Every Region resolves to itself alone. *)
Definition regions_resolve (s : Store) : Prop :=
  forall e n code,
    node_at s e = Some n -> label n = Region ->
    code_of n = Some (VStr code) ->
    hierarchy_query s code = [row_of n].

(** Every city of region segment 13 hangs off the Region of segment 13
    and resolves to that Region followed by the city. *)
Definition ncr_cities_resolve (s : Store) : Prop :=
  forall r nr c nc code,
    node_at s r = Some nr -> label nr = Region ->
    prop nr "region_code" = lit "13" ->
    node_at s c = Some nc -> label nc = CityMunicipality ->
    prop nc "region_code" = lit "13" ->
    code_of nc = Some (VStr code) ->
    In {| rel_src := r; rel_type := HAS_CITY_MUNICIPALITY; rel_dst := c |}
       (rels s)
    /\ hierarchy_query s code = [row_of nr; row_of nc].

(** The graphs the importer can leave behind: the result of any run with
    [--clear], and of any run without it on top of such a graph. *)
Inductive importable : Store -> Prop :=
| importable_empty : importable empty
| importable_clear : forall data w, importable (db (import_data true data w))
| importable_add : forall data w,
    importable (db w) -> importable (db (import_data false data w)).

(** Every pair a statement of [createRelationships] matches is joined. *)
Definition closed (s : Store) : Prop :=
  forall p e, In e (pass_rels p s) -> In e (rels s).

(** Boolean forms of the uniqueness conditions, for concrete graphs. *)
Definition ovalue_eqb (a b : option value) : bool :=
  match a, b with
  | Some x, Some y => value_eqb x y
  | None, None => true
  | _, _ => false
  end.

Definition sole_bearerb (s : Store) (code : string) (i : nat) : bool :=
  forallb (fun x => negb (ovalue_eqb (code_of (snd x)) (Some (VStr code)))
                    || (fst x =? i))
          (indexed s).

Definition unique_codesb (s : Store) : bool :=
  forallb (fun x =>
    forallb (fun y => negb (ovalue_eqb (code_of (snd x)) (code_of (snd y)))
                      || (fst x =? fst y))
            (indexed s))
  (indexed s).

Definition unique_regionsb (s : Store) : bool :=
  forallb (fun x =>
    forallb (fun y =>
      negb (label_eqb (label (snd x)) Region
            && label_eqb (label (snd y)) Region
            && ovalue_eqb (prop (snd x) "region_code")
                          (prop (snd y) "region_code"))
      || (fst x =? fst y))
    (indexed s))
  (indexed s).

(** The two failure responses of the route. *)
Definition not_found : Response :=
  {| resp_status := 404; resp_body := ErrorBody "Location not found" |}.

Definition failed : Response :=
  {| resp_status := 500; resp_body := ErrorBody "Failed to fetch hierarchy" |}.

End Notions.
Export Notions.

(** ** Notions for the importer's invariants *)

Module Schema.

(** The labels each relationship type joins. *)
Definition schema (a : Label) (t : RelType) (b : Label) : bool :=
  match a, t, b with
  | Region, HAS_PROVINCE, Province
  | Province, HAS_CITY_MUNICIPALITY, CityMunicipality
  | Region, HAS_CITY_MUNICIPALITY, CityMunicipality
  | CityMunicipality, HAS_BARANGAY, Barangay
  | CityMunicipality, HAS_SUBMUNICIPALITY, SubMunicipality => true
  | _, _, _ => false
  end.

(** The callback of [data.filter] that selects the records of a kind. *)
Definition filter_of (l : Label) : PSGCData -> bool :=
  match l with
  | Region => regions_filter
  | Province => provinces_filter
  | CityMunicipality => cities_filter
  | Barangay => barangays_filter
  | SubMunicipality => submuns_filter
  end.

(** The number of turns of a batch loop over [n] items. *)
Definition batches (n : nat) : nat := (n + BATCH_SIZE - 1) / BATCH_SIZE.

Definition keys (o : Props) : list string := map fst o.

(** The callback of [properties.forEach] in [importBatch]. *)
Definition copy_prop (it : Item) (acc : Props) (prop : string) : Props :=
  match item_get it prop with
  | Some v => set acc prop v
  | None => acc
  end.

End Schema.
Export Schema.

(** ** The detail routes *)

Module Routes.

(** A reply of [Response.json]: the status and the body. *)
Record Reply (B : Type) := { status_of : nat; body_of : B }.
Arguments status_of {B} _.
Arguments body_of {B} _.

(** [OPTIONAL MATCH]: the matches, or a single row of nulls. *)
Definition optional {A} (l : list A) : list (option A) :=
  match l with
  | [] => [None]
  | _ => map Some l
  end.

(** [DISTINCT]: the first occurrence of every value. *)
Fixpoint distinct_from {A} (eqb : A -> A -> bool) (seen l : list A)
    : list A :=
  match l with
  | [] => []
  | x :: q =>
      if existsb (eqb x) seen then distinct_from eqb seen q
      else x :: distinct_from eqb (x :: seen) q
  end.

Definition distinct {A} (eqb : A -> A -> bool) (l : list A) : list A :=
  distinct_from eqb [] l.

(** [collect] leaves out the nulls. *)
Definition non_null {A} (l : list (option A)) : list A :=
  flat_map (fun o => match o with Some x => [x] | None => [] end) l.

Definition has_label (s : Store) (i : nat) (l : Label) : bool :=
  match node_at s i with
  | Some n => label_eqb (label n) l
  | None => false
  end.

(** [(i)-[:t]->(x:l)]: the nodes [x], one per relationship. *)
Definition expand_out (s : Store) (i : nat) (t : RelType) (l : Label)
    : list nat :=
  map rel_dst
      (filter (fun e => (rel_src e =? i) && reltype_eqb (rel_type e) t
                        && has_label s (rel_dst e) l)
              (rels s)).


(** [MATCH (x:L {psgc_code: $psgc_code})] *)
Definition match_label_code (s : Store) (l : Label) (code : string)
    : list (nat * Node) :=
  filter (fun x => cy_eq (prop (snd x) "psgc_code") (lit code))
         (match_label s l).

(** *** [routes/api/regions/[psgc_code].ts] *)




(** [array.filter((x) => x)] on collected nodes. *)
Definition truthy_nodes (s : Store) (l : list nat) : list Node :=
  path_nodes s l.


(** *** The province route: [collect(c)] without [DISTINCT] *)

Definition provinceData (s : Store) (code : string)
    : list (Node * list nat) :=
  map (fun p =>
         (snd p,
          non_null (optional (expand_out s (fst p) HAS_CITY_MUNICIPALITY
                                         CityMunicipality))))
      (match_label_code s Province code).

Inductive ProvinceBody :=
| ProvinceDetail (province : Props) (cities : list Node) (count : nat)
| ProvinceError (error : string).

Definition province_GET (c : Neo4j) (psgc_code : string)
    : Reply ProvinceBody :=
  match runQuery (fun s => (s, provinceData s psgc_code)) c with
  | Some (s, result :: _) =>
      let cities := truthy_nodes s (snd result) in
      {| status_of := 200;
         body_of := ProvinceDetail (props (fst result)) cities
                                   (length cities) |}
  | Some (_, []) =>
      {| status_of := 404; body_of := ProvinceError "Province not found" |}
  | None =>
      {| status_of := 500;
         body_of := ProvinceError "Failed to fetch province details" |}
  end.

(** *** The node route *)

Definition incoming (s : Store) (i : nat) : list Rel :=
  filter (fun e => rel_dst e =? i) (rels s).

Definition outgoing (s : Store) (i : nat) : list Rel :=
  filter (fun e => rel_src e =? i) (rels s).

(** A collected map [{relationship: type(r), parent: parent,
    parentLabels: labels(parent)}]: the type and the node at the other
    end, or nulls throughout. *)
Definition Link : Type := option (RelType * nat).

Definition end_eqb (a b : RelType * nat) : bool :=
  reltype_eqb (fst a) (fst b) && (snd a =? snd b).

Definition link_eqb (a b : Link) : bool :=
  match a, b with
  | Some x, Some y => end_eqb x y
  | None, None => true
  | _, _ => false
  end.

Definition parent_link (r : option Rel) : Link :=
  option_map (fun e => (rel_type e, rel_src e)) r.

Definition child_link (r : option Rel) : Link :=
  option_map (fun e => (rel_type e, rel_dst e)) r.

(** [OPTIONAL MATCH (parent)-[r]->(n) OPTIONAL MATCH (n)-[r2]->(child)] *)
Definition node_rows (s : Store) (n : nat)
    : list (option Rel * option Rel) :=
  flat_map (fun r => map (fun r2 => (r, r2)) (optional (outgoing s n)))
           (optional (incoming s n)).

(** One record per node that carries the code. *)
Definition nodeData (s : Store) (code : string)
    : list (Node * list Link * list Link) :=
  map (fun n =>
         let rows := node_rows s (fst n) in
         (snd n,
          distinct link_eqb (map (fun row => parent_link (fst row)) rows),
          distinct link_eqb (map (fun row => child_link (snd row)) rows)))
      (match_code s code).

(** An element of [cleanParents] and [cleanChildren]. *)
Record Neighbour := {
  nb_relationship : RelType;
  nb_node : option Node;
  nb_type : string
}.

Definition neighbour (s : Store) (l : RelType * nat) : Neighbour :=
  {| nb_relationship := fst l;
     nb_node := node_at s (snd l);
     nb_type := match node_at s (snd l) with
                | Some n => label_name (label n)
                | None => "Unknown"
                end |}.

(** [.filter((p) => p.parent).map(...)] *)
Definition clean (s : Store) (links : list Link) : list Neighbour :=
  map (neighbour s) (non_null links).

(** [EXISTS((r)-[*0..4]->(target))] *)
Definition exists_pattern (s : Store) (r t : nat) : bool :=
  existsb (fun k => match paths s k r t with [] => false | _ => true end)
          (seq 0 5).

(** A collected map [{type, psgc_code, name}]. *)
Definition Step : Type := (string * option value * option value).

Definition step_eqb (a b : Step) : bool :=
  String.eqb (fst (fst a)) (fst (fst b))
  && ovalue_eqb (snd (fst a)) (snd (fst b))
  && ovalue_eqb (snd a) (snd b).

Definition step_of (n : Node) : Step :=
  (label_name (label n), prop n "psgc_code", prop n "name").

(** The second query of the route; its single record holds [path]. *)
Definition node_hierarchy (s : Store) (code : string) : list Step :=
  distinct step_eqb
    (map step_of
       (order_by sortOrder
          (flat_map (fun target =>
             flat_map (fun r =>
               match r with
               | Some r =>
                   match shortestPath s (fst r) (fst target) with
                   | Some p => path_nodes s p
                   | None => []
                   end
               | None => []
               end)
             (optional
                (filter (fun r => exists_pattern s (fst r) (fst target)
                                  || (fst r =? fst target))
                        (match_label s Region))))
           (match_code s code)))).

Record NodeDetail := {
  nd_node : Props;
  nd_type : string;
  nd_parents : list Neighbour;
  nd_children : list Neighbour;
  nd_hierarchy : list Step;
  nd_parentCount : nat;
  nd_childCount : nat
}.

Inductive NodeBody :=
| NodeOk (detail : NodeDetail)
| NodeNotFound (error : string)
| NodeFailed (error details : string).

(** [handler.GET]; [message] is the text of what [runQuery] throws. *)
Definition node_GET (c : Neo4j) (message : string) (psgc_code : string)
    : Reply NodeBody :=
  match runQuery (fun s => (s, nodeData s psgc_code)) c with
  | Some (_, []) =>
      {| status_of := 404; body_of := NodeNotFound "Node not found" |}
  | Some (s, result :: _) =>
      let '(n, parents, children) := result in
      let cleanParents := clean s parents in
      let cleanChildren := clean s children in
      match runQuery (fun s => node_hierarchy s psgc_code) c with
      | Some hierarchy =>
          {| status_of := 200;
             body_of :=
               NodeOk {| nd_node := props n;
                         nd_type := label_name (label n);
                         nd_parents := cleanParents;
                         nd_children := cleanChildren;
                         nd_hierarchy := hierarchy;
                         nd_parentCount := length cleanParents;
                         nd_childCount := length cleanChildren |} |}
      | None =>
          {| status_of := 500;
             body_of := NodeFailed "Failed to fetch node details" message |}
      end
  | None =>
      {| status_of := 500;
         body_of := NodeFailed "Failed to fetch node details" message |}
  end.

(** The type and the far end of every relationship into and out of a
    node. *)
Definition links_in (s : Store) (i : nat) : list (RelType * nat) :=
  map (fun e => (rel_type e, rel_src e)) (incoming s i).

Definition links_out (s : Store) (i : nat) : list (RelType * nat) :=
  map (fun e => (rel_type e, rel_dst e)) (outgoing s i).

(** *** The city route *)





(** *** The barangay route *)








(** *** The search route: what a typed city or municipality search
    matches *)

Section Search.

(** [toLower(c.name) CONTAINS toLower($query)] holds. *)
Variable CONTAINS : option value -> string -> bool.

Definition cityType (typeFilter : string) : string :=
  if String.eqb typeFilter "city" then "CITY" else "MUNICIPALITY".

(** The rows of [typeConditions], the query that fetches the results:
    [MATCH (c:CityMunicipality) WHERE ... AND c.city_municipality =
    '${cityType}'], before [ORDER BY], [SKIP] and [LIMIT]. *)
Definition city_matches (s : Store) (query typeFilter : string)
    : list (nat * Node) :=
  filter (fun c => CONTAINS (prop (snd c) "name") query
                   && cy_eq (prop (snd c) "city_municipality")
                            (lit (cityType typeFilter)))
         (match_label s CityMunicipality).

End Search.

End Routes.
Export Routes.

(** * Properties *)

Lemma value_eqb_eq a b : value_eqb a b = true <-> a = b.
Proof.
  destruct a, b; simpl; split; intro H; try discriminate; try congruence.
  - apply String.eqb_eq in H. congruence.
  - inversion H. apply String.eqb_refl.
  - apply Z.eqb_eq in H. congruence.
  - inversion H. apply Z.eqb_refl.
  - apply Bool.eqb_prop in H. congruence.
  - inversion H. apply Bool.eqb_reflx.
Qed.

Lemma label_eqb_eq a b : label_eqb a b = true <-> a = b.
Proof. destruct a, b; simpl; split; congruence. Qed.

Lemma label_eqb_refl a : label_eqb a a = true.
Proof. now destruct a. Qed.

(** ** The importer as a function of the data *)

Section ImporterFacts.

Lemma BATCH_SIZE_pos : 0 < BATCH_SIZE.
Proof. unfold BATCH_SIZE. lia. Qed.

Lemma create_nodes_nil s l : create_nodes s l [] = s.
Proof. destruct s. unfold create_nodes. simpl. now rewrite app_nil_r. Qed.

Lemma create_nodes_app s l xs ys :
  create_nodes (create_nodes s l xs) l ys = create_nodes s l (xs ++ ys).
Proof.
  unfold create_nodes. simpl. now rewrite map_app, app_assoc.
Qed.

Lemma importBatch_db items l ps w :
  db (importBatch items l ps w) = create_nodes (db w) l (map (filtered ps) items).
Proof.
  destruct items as [|it items]; simpl.
  - now rewrite create_nodes_nil.
  - reflexivity.
Qed.

Lemma slice_batch {A} (l : list A) i b : slice l i (i + b) = firstn b (skipn i l).
Proof. unfold slice. f_equal. lia. Qed.

Lemma import_loop_db fuel : forall i items l ps what w,
  length items - i <= fuel ->
  db (import_loop fuel i items l ps what w)
  = create_nodes (db w) l (map (filtered ps) (skipn i items)).
Proof.
  pose proof BATCH_SIZE_pos as Hb.
  induction fuel as [|fuel IH]; intros i items l ps what w Hf.
  - simpl. rewrite skipn_all2 by lia. simpl. now rewrite create_nodes_nil.
  - simpl. destruct (i <? length items) eqn:Hi.
    + apply Nat.ltb_lt in Hi.
      rewrite IH by lia. simpl. rewrite importBatch_db, slice_batch.
      rewrite create_nodes_app, <- map_app.
      rewrite Nat.add_comm, <- skipn_skipn, firstn_skipn. reflexivity.
    + apply Nat.ltb_ge in Hi.
      rewrite skipn_all2 by lia. simpl. now rewrite create_nodes_nil.
Qed.

Lemma import_all_db items l ps what w :
  db (import_all items l ps what w)
  = create_nodes (db w) l (map (filtered ps) items).
Proof.
  unfold import_all. rewrite import_loop_db by lia. reflexivity.
Qed.

Lemma pass_rels_nodes p s s' : nodes s = nodes s' -> pass_rels p s = pass_rels p s'.
Proof.
  intros H. unfold pass_rels, match_create, match_label, indexed.
  now rewrite H.
Qed.

Lemma run_passes_nodes order : forall s, nodes (run_passes order s) = nodes s.
Proof.
  induction order as [|p order IH]; intros s; simpl; [reflexivity|].
  unfold run_passes in IH. now rewrite IH.
Qed.

Lemma run_passes_rels order : forall s,
  rels (run_passes order s) = rels s ++ flat_map (fun p => pass_rels p s) order.
Proof.
  induction order as [|p order IH]; intros s; simpl.
  - now rewrite app_nil_r.
  - unfold run_passes in IH. rewrite IH. simpl. rewrite <- app_assoc.
    reflexivity.
Qed.

Lemma createRelationships_db w :
  db (createRelationships w) = run_passes all_passes (db w).
Proof. reflexivity. Qed.

Lemma db_console_log e w : db (console_log e w) = db w.
Proof. reflexivity. Qed.

Lemma db_createIndexes w : db (createIndexes w) = db w.
Proof. reflexivity. Qed.

Lemma db_clearDatabase w : db (clearDatabase w) = empty.
Proof. reflexivity. Qed.

Lemma log_stats_db w : db (log_stats w) = db w.
Proof.
  unfold log_stats.
  destruct ((count_label (db w) Province =? 0)
            || (count_label (db w) CityMunicipality =? 0)
            || (count_label (db w) Barangay =? 0)); reflexivity.
Qed.

Lemma import_data_db data w : db (import_data true data w) = built data.
Proof.
  unfold import_data. cbv zeta. rewrite log_stats_db.
  rewrite !db_console_log, createRelationships_db, db_console_log.
  rewrite !import_all_db, !db_console_log, db_createIndexes, db_clearDatabase.
  assert (Hn : nodes (create_nodes
    (create_nodes (create_nodes (create_nodes (create_nodes empty Region
      (map (filtered regionProps) (map plain (filter regions_filter data))))
      Province (map (filtered provinceProps)
                    (map plain (filter provinces_filter data))))
      CityMunicipality (map (filtered cityProps)
                            (map withType (filter cities_filter data))))
      Barangay (map (filtered barangayProps)
                    (map plain (filter barangays_filter data))))
      SubMunicipality (map (filtered barangayProps)
                           (map plain (filter submuns_filter data))))
    = entities data).
  { unfold entities. simpl. rewrite !map_map, <- !app_assoc. reflexivity. }
  unfold built.
  match goal with |- run_passes _ ?s = _ => set (s0 := s) in * end.
  assert (Hr : rels s0 = []) by reflexivity.
  destruct (run_passes all_passes s0) as [ns rs] eqn:E.
  pose proof (run_passes_nodes all_passes s0) as H1.
  pose proof (run_passes_rels all_passes s0) as H2.
  rewrite E in H1, H2. rewrite Hr in H2. clearbody s0.
  simpl in H1, H2. subst ns rs. rewrite Hn. f_equal.
  simpl. repeat (f_equal; try (apply pass_rels_nodes; exact Hn)).
Qed.

End ImporterFacts.

(** ** Label scans and joins *)

Section GraphFacts.

Lemma in_enum {A} (l : list A) : forall k i a,
  In (i, a) (combine (seq k (length l)) l)
  <-> k <= i /\ nth_error l (i - k) = Some a.
Proof.
  induction l as [|x l IH]; intros k i a; simpl.
  - split; [tauto|]. intros [_ H]. now destruct (i - k).
  - rewrite IH. split.
    + intros [H|[H1 H2]].
      * inversion H; subst. rewrite Nat.sub_diag. split; [lia|reflexivity].
      * split; [lia|]. replace (i - k) with (S (i - S k)) by lia. exact H2.
    + intros [H1 H2]. destruct (i - k) as [|m] eqn:E.
      * left. simpl in H2. inversion H2. f_equal. lia.
      * right. split; [lia|]. simpl in H2.
        replace (i - S k) with m by lia. exact H2.
Qed.

Lemma in_indexed s i a : In (i, a) (indexed s) <-> node_at s i = Some a.
Proof.
  unfold indexed, node_at. rewrite in_enum, Nat.sub_0_r.
  split; [tauto|]. intros H. split; [lia|exact H].
Qed.

Lemma NoDup_indexed s : NoDup (indexed s).
Proof.
  unfold indexed. apply NoDup_map_inv with (f := fst).
  generalize 0. induction (nodes s) as [|x l IH]; intros k; simpl.
  - constructor.
  - constructor; [|apply IH].
    intros H. apply in_map_iff in H. destruct H as [[j b] [Hj Hin]].
    simpl in Hj. subst j. apply in_enum in Hin. lia.
Qed.

Lemma in_match_label s l i a :
  In (i, a) (match_label s l) <-> node_at s i = Some a /\ label a = l.
Proof.
  unfold match_label. rewrite filter_In, in_indexed. simpl.
  now rewrite label_eqb_eq.
Qed.

Lemma NoDup_match_label s l : NoDup (match_label s l).
Proof. apply NoDup_filter, NoDup_indexed. Qed.

Lemma in_match_code s code i a :
  In (i, a) (match_code s code)
  <-> node_at s i = Some a /\ code_of a = Some (VStr code).
Proof.
  unfold match_code, code_of. rewrite filter_In, in_indexed. simpl.
  split; intros [H1 H2]; split; auto.
  - unfold cy_eq, lit in H2. destruct (prop a "psgc_code"); [|discriminate].
    apply value_eqb_eq in H2. now subst.
  - rewrite H2. simpl. apply String.eqb_refl.
Qed.

Lemma in_match_create s la lb w t e :
  In e (match_create s la lb w t)
  <-> exists i a j b,
        node_at s i = Some a /\ label a = la /\
        node_at s j = Some b /\ label b = lb /\
        w a b = true /\
        e = {| rel_src := i; rel_type := t; rel_dst := j |}.
Proof.
  unfold match_create. rewrite in_flat_map. split.
  - intros [[i a] [Ha H]]. apply in_flat_map in H.
    destruct H as [[j b] [Hb H]]. simpl in H.
    apply in_match_label in Ha, Hb.
    destruct (w a b) eqn:W; [|contradiction].
    destruct H as [H|[]]. exists i, a, j, b. intuition.
  - intros (i & a & j & b & Ha & La & Hb & Lb & W & E).
    exists (i, a). split; [now apply in_match_label|].
    apply in_flat_map. exists (j, b). split; [now apply in_match_label|].
    simpl. rewrite W. left. now symmetry.
Qed.

Lemma in_pass_rels p s e :
  In e (pass_rels p s)
  <-> exists a b,
        node_at s (rel_src e) = Some a /\ node_at s (rel_dst e) = Some b /\
        rule_matches p a b = true /\ rel_type e = pass_type p.
Proof.
  unfold pass_rels, rule_matches. rewrite in_match_create. split.
  - intros (i & a & j & b & Ha & La & Hb & Lb & W & E). subst e. simpl.
    exists a, b. rewrite La, Lb, !label_eqb_refl, W. auto.
  - intros (a & b & Ha & Hb & R & T).
    apply andb_true_iff in R. destruct R as [R W].
    apply andb_true_iff in R. destruct R as [La Lb].
    apply label_eqb_eq in La, Lb.
    exists (rel_src e), a, (rel_dst e), b. repeat split; auto.
    destruct e. simpl in *. now subst.
Qed.

(** Split a [WHERE] clause that holds into its conjuncts. *)
Ltac conjuncts H :=
  repeat match type of H with
         | (_ && _) = true =>
             let H' := fresh H in
             apply andb_true_iff in H; destruct H as [H H']
         end.

Lemma cy_eq_true a b : cy_eq a b = true -> exists v, a = Some v /\ b = Some v.
Proof.
  destruct a as [x|], b as [y|]; simpl; try discriminate.
  intros H. apply value_eqb_eq in H. subst. eauto.
Qed.

(** Each statement joins a parent to a child of strictly larger rank
    and of the same region segment. *)
Lemma rule_matches_rank p a b :
  rule_matches p a b = true -> sortOrder a < sortOrder b.
Proof.
  unfold rule_matches, sortOrder. intros H. conjuncts H.
  apply label_eqb_eq in H, H1. rewrite H, H1. destruct p; simpl; lia.
Qed.

Lemma rule_matches_child p a b :
  rule_matches p a b = true -> label b <> Region.
Proof.
  intros H. apply rule_matches_rank in H. unfold sortOrder in H.
  intros E. rewrite E in H. lia.
Qed.

Lemma rule_matches_region p a b :
  rule_matches p a b = true ->
  exists v, prop a "region_code" = Some v /\ prop b "region_code" = Some v.
Proof.
  unfold rule_matches. intros H. conjuncts H. clear H H1.
  destruct p; simpl in H0;
    unfold where_region_province, where_province_city, where_city_barangay,
      where_city_submun, where_ncr in H0;
    conjuncts H0;
    try (apply cy_eq_true in H0; destruct H0 as (v & W1 & W2);
         exists v; split; assumption).
  apply cy_eq_true in H0. destruct H0 as (v & W1 & W2).
  apply cy_eq_true in H1. destruct H1 as (v' & V1 & V2).
  unfold lit in *. exists v. split; congruence.
Qed.

Lemma in_succs s i j :
  In j (succs s i) <-> exists e, In e (rels s) /\ rel_src e = i /\ rel_dst e = j.
Proof.
  unfold succs. rewrite in_map_iff. split.
  - intros [e [E H]]. apply filter_In in H. destruct H as [H1 H2].
    apply Nat.eqb_eq in H2. eauto.
  - intros [e [H [E1 E2]]]. exists e. split; [assumption|].
    apply filter_In. split; [assumption|]. now apply Nat.eqb_eq.
Qed.

Lemma linked_edge s i j :
  linked s -> edge s i j ->
  exists p a b, node_at s i = Some a /\ node_at s j = Some b
                /\ rule_matches p a b = true.
Proof.
  intros L E. apply in_succs in E. destruct E as (e & He & E1 & E2).
  destruct (L e He) as [p Hp]. apply in_pass_rels in Hp.
  destruct Hp as (a & b & Ha & Hb & R & _). subst i j.
  exists p, a, b. auto.
Qed.

Lemma built_linked data : linked (built data).
Proof.
  intros e He. unfold built in He. cbn [rels] in He.
  apply in_flat_map in He. destruct He as [p [_ Hp]].
  exists p. erewrite pass_rels_nodes; [exact Hp|reflexivity].
Qed.

End GraphFacts.

(** ** Walks and [shortestPath] *)

Section WalkFacts.

Variable s : Store.

Lemma walks_spec k : forall i p,
  In p (walks s k i) <-> is_walk s p /\ hd 0 p = i /\ length p = S k.
Proof.
  induction k as [|k IH]; intros i p; simpl.
  - split.
    + intros [H|[]]. subst p. simpl. auto.
    + intros (W & H & L). destruct p as [|x [|y q]]; simpl in *;
        try discriminate. left. now subst.
  - rewrite in_flat_map. split.
    + intros (j & Hj & Hp). apply in_map_iff in Hp.
      destruct Hp as (q & Hq & Hin). apply IH in Hin.
      destruct Hin as (W & H & L). subst p.
      destruct q as [|y q]; simpl in *; [contradiction|].
      subst y. repeat split; auto.
    + intros (W & H & L). destruct p as [|x [|y q]]; simpl in *;
        try discriminate. subst x. destruct W as [E W].
      exists y. split; [exact E|]. apply in_map_iff.
      exists (y :: q). split; [reflexivity|]. apply IH.
      repeat split; auto.
Qed.

Lemma in_paths k r t p :
  In p (paths s k r t)
  <-> is_walk s p /\ hd 0 p = r /\ length p = S k /\ last p 0 = t.
Proof.
  unfold paths, ends_at. rewrite filter_In, walks_spec, Nat.eqb_eq. tauto.
Qed.

Lemma first_path_some lens r t p :
  first_path s lens r t = Some p ->
  exists k, In k lens /\ In p (paths s k r t).
Proof.
  induction lens as [|k lens IH]; simpl; [discriminate|].
  destruct (paths s k r t) as [|q qs] eqn:E.
  - intros H. destruct (IH H) as (k' & Hk & Hp). eauto.
  - intros H. inversion H; subst q. exists k. rewrite E. simpl. auto.
Qed.

Lemma first_path_none lens r t :
  first_path s lens r t = None <-> forall k, In k lens -> paths s k r t = [].
Proof.
  induction lens as [|k lens IH]; simpl.
  - split; [intros _ k []|reflexivity].
  - destruct (paths s k r t) as [|q qs] eqn:E.
    + rewrite IH. split.
      * intros H k' [<-|Hk]; auto.
      * intros H k' Hk. apply H. now right.
    + split; [discriminate|]. intros H.
      specialize (H k (or_introl eq_refl)). congruence.
Qed.

Lemma shortestPath_sound r t p :
  shortestPath s r t = Some p ->
  is_walk s p /\ hd 0 p = r /\ last p 0 = t /\ length p <= 5.
Proof.
  intros H. apply first_path_some in H. destruct H as (k & Hk & Hp).
  apply in_paths in Hp. destruct Hp as (W & Hh & L & Hl).
  apply in_seq in Hk. repeat split; auto. lia.
Qed.

Lemma shortestPath_none r t :
  shortestPath s r t = None <-> ~ reaches s 4 r t.
Proof.
  unfold shortestPath. rewrite first_path_none. split.
  - intros H (p & W & Hh & Hl & L).
    destruct p as [|x q]; [contradiction|].
    assert (Hk : In (length q) (seq 0 5)) by (apply in_seq; simpl in L; lia).
    specialize (H _ Hk).
    assert (Hin : In (x :: q) (paths s (length q) r t))
      by (apply in_paths; auto).
    rewrite H in Hin. contradiction.
  - intros H k Hk. destruct (paths s k r t) as [|p ps] eqn:E; [reflexivity|].
    exfalso. apply H. exists p.
    assert (Hin : In p (paths s k r t)) by (rewrite E; now left).
    apply in_paths in Hin. destruct Hin as (W & Hh & L & Hl).
    apply in_seq in Hk. repeat split; auto. lia.
Qed.

Lemma shortestPath_complete r t :
  reaches s 4 r t -> exists p, shortestPath s r t = Some p.
Proof.
  intros H. destruct (shortestPath s r t) as [p|] eqn:E; [eauto|].
  apply shortestPath_none in E. contradiction.
Qed.

Lemma shortestPath_self r : shortestPath s r r = Some [r].
Proof.
  unfold shortestPath. cbn [seq first_path]. unfold paths.
  cbn [walks filter]. unfold ends_at. cbn [last].
  now rewrite Nat.eqb_refl.
Qed.

(** The last relationship of a walk that leaves its first node. *)
Lemma walk_last_edge p :
  is_walk s p -> 2 <= length p -> exists i, edge s i (last p 0).
Proof.
  induction p as [|x q IH]; [contradiction|].
  destruct q as [|y q']; simpl; [lia|].
  intros [E W] _. destruct q' as [|z q''].
  - exists x. exact E.
  - apply IH; [exact W|simpl; lia].
Qed.

Lemma walk_short p : is_walk s p -> hd 0 p <> last p 0 -> 2 <= length p.
Proof.
  destruct p as [|x [|y q]]; simpl; intros W H; lia.
Qed.

Hypothesis L : linked s.

Lemma edge_target_not_region i j b :
  edge s i j -> node_at s j = Some b -> label b <> Region.
Proof.
  intros E Hb. destruct (linked_edge s i j L E) as (p & a & b' & Ha & Hb' & R).
  rewrite Hb in Hb'. inversion Hb'; subst b'.
  exact (rule_matches_child _ _ _ R).
Qed.

Lemma edge_rank i j : edge s i j -> rank_of s i < rank_of s j.
Proof.
  intros E. destruct (linked_edge s i j L E) as (p & a & b & Ha & Hb & R).
  unfold rank_of. rewrite Ha, Hb. exact (rule_matches_rank _ _ _ R).
Qed.

Lemma edge_region i j :
  edge s i j ->
  exists v, region_of s i = Some v /\ region_of s j = Some v.
Proof.
  intros E. destruct (linked_edge s i j L E) as (p & a & b & Ha & Hb & R).
  unfold region_of. rewrite Ha, Hb. exact (rule_matches_region _ _ _ R).
Qed.

Lemma edge_exists i j :
  edge s i j -> node_at s i <> None /\ node_at s j <> None.
Proof.
  intros E. destruct (linked_edge s i j L E) as (p & a & b & Ha & Hb & R).
  rewrite Ha, Hb. split; discriminate.
Qed.

Lemma walk_increasing p : is_walk s p -> increasing (map (rank_of s) p).
Proof.
  induction p as [|x q IH]; [contradiction|].
  destruct q as [|y q']; simpl; [auto|].
  intros [E W]. split; [now apply edge_rank|]. now apply IH.
Qed.

Lemma walk_region p :
  is_walk s p -> 2 <= length p ->
  exists v, region_of s (hd 0 p) = Some v /\ region_of s (last p 0) = Some v.
Proof.
  induction p as [|x q IH]; [contradiction|].
  destruct q as [|y q']; simpl; [lia|].
  intros [E W] _. destruct (edge_region x y E) as (v & Hx & Hy).
  destruct q' as [|z q''].
  - exists v. auto.
  - destruct (IH W) as (v' & Hy' & Hl); [simpl; lia|].
    simpl in Hy'. exists v. split; [exact Hx|].
    replace v with v' by congruence. exact Hl.
Qed.

Lemma walk_exists p :
  is_walk s p -> node_at s (hd 0 p) <> None ->
  Forall (fun i => node_at s i <> None) p.
Proof.
  induction p as [|x q IH]; [contradiction|].
  destruct q as [|y q']; simpl.
  - intros _ H. constructor; [exact H|constructor].
  - intros [E W] H. constructor; [exact H|].
    apply IH; [exact W|]. simpl. now apply (edge_exists x y E).
Qed.

End WalkFacts.

(** ** The rows of the hierarchy query *)

Section ResolverFacts.

Lemma flat_map_all_nil {A B} (f : A -> list B) l :
  (forall x, In x l -> f x = []) -> flat_map f l = [].
Proof.
  induction l as [|y l IH]; intros H; simpl; [reflexivity|].
  rewrite H by now left. apply IH. intros z Hz. apply H. now right.
Qed.

Lemma flat_map_unique {A B} (f : A -> list B) l a :
  NoDup l -> In a l -> (forall x, In x l -> x <> a -> f x = []) ->
  flat_map f l = f a.
Proof.
  induction l as [|x l IH]; intros N Hin Hf; [contradiction|].
  inversion N as [|? ? Hx N']; subst. simpl.
  destruct Hin as [->|Hin].
  - rewrite flat_map_all_nil; [now rewrite app_nil_r|].
    intros y Hy. apply Hf; [now right|]. intros ->. contradiction.
  - rewrite (Hf x); [|now left|intros ->; contradiction].
    simpl. apply IH; auto. intros y Hy. apply Hf. now right.
Qed.

Lemma filter_unique {A} (f : A -> bool) l a :
  NoDup l -> In a l -> f a = true ->
  (forall x, In x l -> f x = true -> x = a) ->
  filter f l = [a].
Proof.
  intros N Hin Ha Hf.
  assert (E : forall l', filter f l' = flat_map (fun x => if f x then [x] else []) l').
  { induction l' as [|y l' IH]; simpl; [reflexivity|].
    rewrite IH. now destruct (f y). }
  rewrite E, (flat_map_unique _ l a N Hin).
  - now rewrite Ha.
  - intros x Hx Hne. destruct (f x) eqn:Fx; [|reflexivity].
    elim Hne. now apply Hf.
Qed.

Lemma order_by_sorted {A} (key : A -> nat) l :
  nondecreasing (map key l) -> order_by key l = l.
Proof.
  induction l as [|x l IH]; simpl; [reflexivity|].
  destruct l as [|y l'].
  - reflexivity.
  - intros [Hxy H]. rewrite IH by exact H. simpl.
    apply Nat.leb_le in Hxy. now rewrite Hxy.
Qed.

Lemma increasing_nondecreasing l : increasing l -> nondecreasing l.
Proof.
  induction l as [|x l IH]; simpl; [auto|].
  destruct l as [|y l']; [auto|]. intros [H1 H2]. split; [lia|auto].
Qed.

Lemma increasing_above x l : increasing (x :: l) -> Forall (fun y => x < y) l.
Proof.
  revert x. induction l as [|y l IH]; intros x H; [constructor|].
  destruct H as [Hxy H]. constructor; [exact Hxy|].
  specialize (IH y H). eapply Forall_impl; [|exact IH].
  simpl. intros; lia.
Qed.

Lemma increasing_tail x l : increasing (x :: l) -> increasing l.
Proof. destruct l; simpl; tauto. Qed.

Lemma increasing_NoDup {A} (f : A -> nat) l : increasing (map f l) -> NoDup l.
Proof.
  induction l as [|x l IH]; intros H; [constructor|].
  constructor; [|apply IH; exact (increasing_tail _ _ H)].
  intros Hin. apply increasing_above in H.
  rewrite Forall_forall in H. specialize (H (f x) (in_map f _ _ Hin)). lia.
Qed.

Variable s : Store.

Lemma in_path_nodes p b :
  In b (path_nodes s p) <-> exists j, In j p /\ node_at s j = Some b.
Proof.
  unfold path_nodes. rewrite in_flat_map. split.
  - intros (j & Hj & H). exists j. split; [exact Hj|].
    destruct (node_at s j); [|contradiction]. destruct H as [->|[]].
    reflexivity.
  - intros (j & Hj & H). exists j. split; [exact Hj|]. rewrite H. now left.
Qed.

Lemma path_nodes_cons i n p :
  node_at s i = Some n -> path_nodes s (i :: p) = n :: path_nodes s p.
Proof. intros H. unfold path_nodes. simpl. now rewrite H. Qed.

Lemma path_nodes_rank p :
  Forall (fun i => node_at s i <> None) p ->
  map sortOrder (path_nodes s p) = map (rank_of s) p.
Proof.
  induction 1 as [|i p Hi _ IH]; [reflexivity|].
  destruct (node_at s i) as [n|] eqn:E; [|contradiction].
  rewrite (path_nodes_cons i n p E). simpl. rewrite IH. f_equal.
  unfold rank_of. now rewrite E.
Qed.

Lemma path_nodes_last p n d :
  Forall (fun i => node_at s i <> None) p -> p <> [] ->
  node_at s (last p 0) = Some n -> last (path_nodes s p) d = n.
Proof.
  induction 1 as [|i p Hi Hp IH]; intros Hne Hl; [contradiction|].
  destruct (node_at s i) as [m|] eqn:E; [|contradiction].
  rewrite (path_nodes_cons i m p E). destruct p as [|j q].
  - simpl in *. congruence.
  - assert (Hq : path_nodes s (j :: q) <> []).
    { inversion Hp as [|? ? Hj _]; subst.
      destruct (node_at s j) as [mj|] eqn:Ej; [|contradiction].
      rewrite (path_nodes_cons j mj q Ej). discriminate. }
    change (last (i :: j :: q) 0) with (last (j :: q) 0) in Hl.
    specialize (IH ltac:(discriminate) Hl).
    destruct (path_nodes s (j :: q)) as [|y ys] eqn:Eq; [contradiction|].
    exact IH.
Qed.

(** The target rows when exactly one node carries the code. *)
Lemma match_code_sole code e n :
  node_at s e = Some n -> code_of n = Some (VStr code) ->
  sole_bearer s code e -> match_code s code = [(e, n)].
Proof.
  intros Hn Hc Hs. unfold match_code.
  apply filter_unique.
  - apply NoDup_indexed.
  - now apply in_indexed.
  - simpl. fold (code_of n). rewrite Hc. simpl. apply String.eqb_refl.
  - intros [j m] Hin Hf. apply in_indexed in Hin.
    assert (Hm : In (j, m) (match_code s code)).
    { unfold match_code. apply filter_In. split; [now apply in_indexed|exact Hf]. }
    apply in_match_code in Hm. destruct Hm as [_ Hm].
    specialize (Hs j m Hin Hm). subst j. congruence.
Qed.

(** The rows when a single region [r] reaches the single target. *)
Lemma hierarchy_single code e n r nr p :
  match_code s code = [(e, n)] ->
  node_at s r = Some nr -> label nr = Region ->
  shortestPath s r e = Some p ->
  (forall r' m, node_at s r' = Some m -> label m = Region -> r' <> r ->
                shortestPath s r' e = None) ->
  hierarchy_nodes s code = order_by sortOrder (path_nodes s p).
Proof.
  intros Hc Hr Lr Hp Hothers. unfold hierarchy_nodes. rewrite Hc.
  cbn [flat_map fst]. rewrite app_nil_r. f_equal.
  rewrite (flat_map_unique _ (match_label s Region) (r, nr)).
  - simpl. now rewrite Hp.
  - apply NoDup_match_label.
  - now apply in_match_label.
  - intros [r' m] Hin Hne. apply in_match_label in Hin.
    destruct Hin as [Hm Lm]. simpl. rewrite (Hothers r' m Hm Lm); auto.
    intros ->. apply Hne. congruence.
Qed.

End ResolverFacts.

(** ** Deciding the uniqueness conditions *)

Section Deciders.

Lemma ovalue_eqb_eq a b : ovalue_eqb a b = true <-> a = b.
Proof.
  destruct a as [x|], b as [y|]; simpl; split; intro H;
    try discriminate; try reflexivity.
  - apply value_eqb_eq in H. now subst.
  - inversion H. now apply value_eqb_eq.
Qed.

Lemma sole_bearerb_sound s code i :
  sole_bearerb s code i = true -> sole_bearer s code i.
Proof.
  unfold sole_bearerb, sole_bearer. rewrite forallb_forall.
  intros H j m Hj Hc. apply in_indexed in Hj. specialize (H _ Hj).
  simpl in H. apply orb_true_iff in H. destruct H as [H|H].
  - apply negb_true_iff in H. apply ovalue_eqb_eq in Hc. congruence.
  - now apply Nat.eqb_eq.
Qed.

Lemma unique_codesb_sound s : unique_codesb s = true -> unique_codes s.
Proof.
  unfold unique_codesb, unique_codes. rewrite forallb_forall.
  intros H i j a b Ha Hb Hc. apply in_indexed in Ha, Hb.
  specialize (H _ Ha). rewrite forallb_forall in H. specialize (H _ Hb).
  simpl in H. apply orb_true_iff in H. destruct H as [H|H].
  - apply negb_true_iff in H. apply ovalue_eqb_eq in Hc. congruence.
  - now apply Nat.eqb_eq.
Qed.

Lemma unique_regionsb_sound s : unique_regionsb s = true -> unique_regions s.
Proof.
  unfold unique_regionsb, unique_regions. rewrite forallb_forall.
  intros H i j a b Ha Hb La Lb Hc. apply in_indexed in Ha, Hb.
  specialize (H _ Ha). rewrite forallb_forall in H. specialize (H _ Hb).
  simpl in H. apply orb_true_iff in H. destruct H as [H|H].
  - apply negb_true_iff in H. apply ovalue_eqb_eq in Hc.
    rewrite La, Lb, Hc in H. discriminate.
  - now apply Nat.eqb_eq.
Qed.

Lemma unique_codes_sole s code e n :
  unique_codes s -> node_at s e = Some n -> code_of n = Some (VStr code) ->
  sole_bearer s code e.
Proof.
  intros U Hn Hc j m Hm Hcm. apply (U j e m n Hm Hn). congruence.
Qed.

End Deciders.

(** ** The graphs the importer leaves behind *)

Section ImportedGraphs.

Lemma import_data_nodes clearFlag data w :
  nodes (db (import_data clearFlag data w))
  = (if clearFlag then [] else nodes (db w)) ++ entities data.
Proof.
  destruct clearFlag; [now rewrite import_data_db|].
  unfold import_data. cbv zeta. rewrite log_stats_db.
  rewrite !db_console_log, createRelationships_db, db_console_log.
  rewrite run_passes_nodes.
  rewrite !import_all_db, !db_console_log, db_createIndexes.
  unfold entities. simpl. rewrite !map_map, <- !app_assoc. reflexivity.
Qed.

Lemma import_data_run clearFlag data w :
  exists s1,
    db (import_data clearFlag data w) = run_passes all_passes s1
    /\ rels s1 = (if clearFlag then [] else rels (db w)).
Proof.
  eexists. split.
  - unfold import_data. cbv zeta. rewrite log_stats_db.
    rewrite !db_console_log, createRelationships_db, db_console_log.
    rewrite !import_all_db, !db_console_log, db_createIndexes.
    reflexivity.
  - destruct clearFlag; reflexivity.
Qed.

Lemma import_data_rels clearFlag data w :
  rels (db (import_data clearFlag data w))
  = (if clearFlag then [] else rels (db w))
    ++ flat_map (fun p => pass_rels p (db (import_data clearFlag data w)))
                all_passes.
Proof.
  destruct (import_data_run clearFlag data w) as (s1 & E & R).
  rewrite E, run_passes_rels, R. reflexivity.
Qed.

Lemma import_data_closed clearFlag data w :
  closed (db (import_data clearFlag data w)).
Proof.
  intros p e H. rewrite import_data_rels. apply in_or_app. right.
  apply in_flat_map. exists p. split; [destruct p; simpl; tauto|exact H].
Qed.

Lemma import_data_linked clearFlag data w :
  (clearFlag = false -> linked (db w)) ->
  linked (db (import_data clearFlag data w)).
Proof.
  intros L e He. rewrite import_data_rels in He.
  apply in_app_or in He. destruct He as [He|He].
  - destruct clearFlag; [contradiction|].
    destruct (L eq_refl e He) as [p Hp]. exists p.
    apply in_pass_rels in Hp. destruct Hp as (a & b & Ha & Hb & R & T).
    apply in_pass_rels. exists a, b. unfold node_at in *.
    rewrite import_data_nodes.
    rewrite !nth_error_app1
      by (apply nth_error_Some; congruence). auto.
  - apply in_flat_map in He. destruct He as [p [_ Hp]]. now exists p.
Qed.

Lemma importable_linked s : importable s -> linked s.
Proof.
  induction 1 as [|data w|data w _ IH].
  - intros e [].
  - apply import_data_linked. discriminate.
  - apply import_data_linked. intros _. exact IH.
Qed.

Lemma importable_closed s : importable s -> closed s.
Proof.
  destruct 1 as [|data w|data w _].
  - intros p e H. destruct p; contradiction.
  - apply import_data_closed.
  - apply import_data_closed.
Qed.

(** The fuel [import_all] gives the loop is enough: more changes nothing. *)
Lemma import_loop_fuel fuel : forall i items l ps what w,
  length items - i <= fuel ->
  import_loop (S fuel) i items l ps what w
  = import_loop fuel i items l ps what w.
Proof.
  pose proof BATCH_SIZE_pos as Hb.
  induction fuel as [|fuel IH]; intros i items l ps what w Hf.
  - simpl. destruct (i <? length items) eqn:Hi; [|reflexivity].
    apply Nat.ltb_lt in Hi. lia.
  - change (import_loop (S (S fuel)) i items l ps what w)
      with (if i <? length items
            then import_loop (S fuel) (i + BATCH_SIZE) items l ps what
                   (console_log
                      (LogN ("  Imported {}/{} " ++ what)%string
                            [Nat.min (i + BATCH_SIZE) (length items);
                             length items])
                      (importBatch (slice items i (i + BATCH_SIZE)) l ps w))
            else w).
    change (import_loop (S fuel) i items l ps what w)
      with (if i <? length items
            then import_loop fuel (i + BATCH_SIZE) items l ps what
                   (console_log
                      (LogN ("  Imported {}/{} " ++ what)%string
                            [Nat.min (i + BATCH_SIZE) (length items);
                             length items])
                      (importBatch (slice items i (i + BATCH_SIZE)) l ps w))
            else w).
    destruct (i <? length items) eqn:Hi; [|reflexivity].
    apply IH. lia.
Qed.

End ImportedGraphs.

(** ** Resolving a code *)

Section Resolve.

(** In a graph whose relationships all come from [createRelationships],
    a Region is reached from no other node. *)
Lemma region_unreached s e n r :
  linked s -> node_at s e = Some n -> label n = Region -> r <> e ->
  shortestPath s r e = None.
Proof.
  intros L Hn Ln Hne. destruct (shortestPath s r e) as [p|] eqn:E;
    [|reflexivity].
  apply shortestPath_sound in E. destruct E as (W & Hh & Hl & _).
  assert (H2 : 2 <= length p) by (apply (walk_short s); [exact W|congruence]).
  destruct (walk_last_edge s p W H2) as [i Hi]. rewrite Hl in Hi.
  elim (edge_target_not_region s L i e n Hi Hn Ln).
Qed.

Lemma direct_shortest s r c :
  r <> c -> edge s r c -> shortestPath s r c = Some [r; c].
Proof.
  intros Hne E. unfold shortestPath. cbn [seq first_path].
  assert (H0 : paths s 0 r c = []).
  { unfold paths. cbn [walks filter]. unfold ends_at. cbn [last].
    apply Nat.eqb_neq in Hne. now rewrite Hne. }
  rewrite H0.
  assert (H1 : In [r; c] (paths s 1 r c)).
  { apply in_paths. simpl. auto. }
  destruct (paths s 1 r c) as [|q qs] eqn:Eq; [contradiction|].
  assert (Hq : In q (paths s 1 r c)) by (rewrite Eq; now left).
  apply in_paths in Hq. destruct Hq as (_ & Hh & Hl & Ht).
  destruct q as [|x [|y [|z q']]]; simpl in *; try discriminate.
  now subst.
Qed.

Lemma path_codes_NoDup s p :
  unique_codes s -> NoDup p -> NoDup (map code_of (path_nodes s p)).
Proof.
  intros U. induction 1 as [|i p Hi N IH]; [constructor|].
  destruct (node_at s i) as [a|] eqn:Ea.
  - rewrite (path_nodes_cons s i a p Ea). simpl. constructor; [|exact IH].
    intros Hin. apply in_map_iff in Hin. destruct Hin as (b & Hb & Hin).
    apply in_path_nodes in Hin. destruct Hin as (j & Hj & Hnj).
    assert (j = i) by (apply (U j i b a Hnj Ea Hb)). subst j. contradiction.
  - unfold path_nodes. simpl. rewrite Ea. exact IH.
Qed.

(** Two Regions that both reach a node coincide when region segments
    identify Regions. *)
Lemma reaching_region_unique s e n r nr r' m p p' :
  linked s -> unique_regions s ->
  node_at s e = Some n ->
  node_at s r = Some nr -> label nr = Region ->
  node_at s r' = Some m -> label m = Region ->
  shortestPath s r e = Some p -> shortestPath s r' e = Some p' ->
  r' = r.
Proof.
  intros L U Hn Hr Lr Hm Lm Hp Hp'.
  destruct (Nat.eq_dec r e) as [->|Hre].
  - destruct (Nat.eq_dec r' e) as [->|Hre']; [reflexivity|].
    assert (Ln : label n = Region) by congruence.
    rewrite (region_unreached s e n r' L Hn Ln Hre') in Hp'. discriminate.
  - destruct (Nat.eq_dec r' e) as [->|Hre'].
    + assert (Ln : label n = Region) by congruence.
      rewrite (region_unreached s e n r L Hn Ln Hre) in Hp. discriminate.
    + apply shortestPath_sound in Hp, Hp'.
      destruct Hp as (W & Hh & Hl & _). destruct Hp' as (W' & Hh' & Hl' & _).
      assert (H2 : 2 <= length p)
        by (apply (walk_short s); [exact W|congruence]).
      assert (H2' : 2 <= length p')
        by (apply (walk_short s); [exact W'|congruence]).
      destruct (walk_region s L p W H2) as (v & Hv1 & Hv2).
      destruct (walk_region s L p' W' H2') as (v' & Hv1' & Hv2').
      rewrite Hh in Hv1. rewrite Hl in Hv2.
      rewrite Hh' in Hv1'. rewrite Hl' in Hv2'.
      unfold region_of in Hv1, Hv1'. rewrite Hr in Hv1. rewrite Hm in Hv1'.
      apply (U r' r m nr Hm Hr Lm Lr). congruence.
Qed.

Lemma GET_empty s code :
  hierarchy_nodes s code = [] -> GET (Online s) code = not_found.
Proof.
  intros H. unfold GET, runQuery, hierarchy_query. now rewrite H.
Qed.

End Resolve.

(** ** Relationship-building *)

Section Relationships.

Lemma filter_andb {A} (f g : A -> bool) l :
  filter (fun x => f x && g x) l = filter f (filter g l).
Proof.
  induction l as [|x l IH]; simpl; [reflexivity|].
  destruct (g x); simpl; rewrite ?andb_false_r, ?andb_true_r.
  - destruct (f x); now rewrite IH.
  - exact IH.
Qed.

Lemma filter_comm {A} (f g : A -> bool) l :
  filter f (filter g l) = filter g (filter f l).
Proof.
  rewrite <- !filter_andb. apply filter_ext. intros x. apply andb_comm.
Qed.

Lemma filter_index s i n :
  node_at s i = Some n -> filter (fun x => fst x =? i) (indexed s) = [(i, n)].
Proof.
  intros H. apply filter_unique.
  - apply NoDup_indexed.
  - now apply in_indexed.
  - apply Nat.eqb_refl.
  - intros [j m] Hin Hj. simpl in Hj. apply Nat.eqb_eq in Hj. subst j.
    apply in_indexed in Hin. congruence.
Qed.

Lemma count_flat_map_if {A B} (f : B -> bool) (g : A -> bool) (h : A -> B) l :
  length (filter f (flat_map (fun b => if g b then [h b] else []) l))
  = length (filter (fun b => g b && f (h b)) l).
Proof.
  induction l as [|b l IH]; simpl; [reflexivity|].
  rewrite filter_app, length_app, IH.
  destruct (g b); simpl; [|reflexivity]. now destruct (f (h b)).
Qed.

(** The relationships a statement creates towards a given node: one
    per parent the statement matches with it. *)
Lemma in_degree_match_create s la lb w t i n :
  node_at s i = Some n ->
  length (filter (fun e => rel_dst e =? i) (match_create s la lb w t))
  = length (filter (fun a => label_eqb (label (snd a)) la
                             && label_eqb (label n) lb && w (snd a) n)
                   (indexed s)).
Proof.
  intros Hn. unfold match_create.
  set (F := fun a : nat * Node =>
              flat_map (fun b : nat * Node =>
                if w (snd a) (snd b)
                then [{| rel_src := fst a; rel_type := t; rel_dst := fst b |}]
                else [])
              (match_label s lb)).
  assert (HF : forall a, length (filter (fun e => rel_dst e =? i) (F a))
                         = if label_eqb (label n) lb && w (snd a) n
                           then 1 else 0).
  { intros a. unfold F, match_label. rewrite count_flat_map_if. simpl.
    rewrite (filter_andb (fun b : nat * Node => w (snd a) (snd b))
                         (fun b : nat * Node => fst b =? i)).
    rewrite (filter_comm (fun b : nat * Node => fst b =? i)).
    rewrite (filter_index s i n Hn). simpl.
    destruct (label_eqb (label n) lb); simpl; [|reflexivity].
    now destruct (w (snd a) n). }
  clearbody F. unfold match_label.
  induction (indexed s) as [|x X IH]; simpl; [reflexivity|].
  destruct (label_eqb (label (snd x)) la); simpl; [|exact IH].
  rewrite filter_app, length_app, IH, HF.
  now destruct (label_eqb (label n) lb && w (snd x) n).
Qed.

Lemma in_degree_pass p s i n :
  node_at s i = Some n ->
  length (filter (fun e => rel_dst e =? i) (pass_rels p s))
  = length (filter (fun a => rule_matches p (snd a) n) (indexed s)).
Proof.
  intros Hn. unfold pass_rels, rule_matches.
  now apply in_degree_match_create.
Qed.

(** A pair of labels is joined by at most one statement. *)
Lemma candidates_split n X :
  length (filter (fun x : nat * Node => parent_rule (snd x) n) X)
  = length (filter (fun x => rule_matches RegionProvince (snd x) n) X)
    + length (filter (fun x => rule_matches ProvinceCity (snd x) n) X)
    + length (filter (fun x => rule_matches CityBarangay (snd x) n) X)
    + length (filter (fun x => rule_matches CitySubMun (snd x) n) X)
    + length (filter (fun x => rule_matches NcrCity (snd x) n) X).
Proof.
  unfold parent_rule, rule_matches.
  cbn [existsb all_passes pass_parent pass_child pass_where].
  destruct (label n);
    (induction X as [|x X IH]; [reflexivity|]);
    cbn [filter]; destruct (label (snd x));
    cbn [label_eqb andb orb] in IH |- *;
    repeat match goal with
           | |- context [if ?w (snd x) n then _ else _] =>
               destruct (w (snd x) n)
           end; cbn [orb length]; rewrite IH; lia.
Qed.

Lemma in_degree_built data i n :
  node_at (built data) i = Some n ->
  in_degree (built data) i = length (candidates (built data) n).
Proof.
  intros Hn. unfold in_degree, candidates. rewrite candidates_split.
  unfold built at 1. cbn [rels flat_map all_passes].
  rewrite !filter_app, !length_app. simpl.
  rewrite <- !(in_degree_pass _ (built data) i n Hn).
  rewrite !(pass_rels_nodes _ (built data)
              {| nodes := entities data; rels := [] |} eq_refl).
  lia.
Qed.

Lemma count_rels_app t l1 l2 :
  count_rels t (l1 ++ l2) = count_rels t l1 + count_rels t l2.
Proof. unfold count_rels. now rewrite filter_app, length_app. Qed.

Lemma createRelationships_twice w :
  rels (db (createRelationships (createRelationships w)))
  = rels (db (createRelationships w))
    ++ flat_map (fun p => pass_rels p (db w)) all_passes.
Proof.
  rewrite (createRelationships_db (createRelationships w)), run_passes_rels.
  reflexivity.
Qed.

Lemma createRelationships_order s c :
  db (createRelationships {| db := s; console := c |}) = run_passes all_passes s.
Proof. reflexivity. Qed.

End Relationships.

(** ** Classification and import of the records *)

Section Classification.



Lemma in_entities data d l :
  In d data -> In l (kinds d) -> In (entity l d) (entities data).
Proof.
  intros Hd Hl. unfold entities, kinds in *.
  assert (F : forall f, f d = true -> In (entity l d) (map (entity l) (filter f data))).
  { intros f Hf. apply in_map, filter_In. auto. }
  repeat rewrite in_app_iff in *.
  destruct Hl as [H|[H|[H|[H|H]]]].
  - destruct (regions_filter d) eqn:E; [|contradiction].
    destruct H as [<-|[]]. left. now apply F.
  - destruct (provinces_filter d) eqn:E; [|contradiction].
    destruct H as [<-|[]]. right; left. now apply F.
  - destruct (cities_filter d) eqn:E; [|contradiction].
    destruct H as [<-|[]]. right; right; left. now apply F.
  - destruct (barangays_filter d) eqn:E; [|contradiction].
    destruct H as [<-|[]]. right; right; right; left. now apply F.
  - destruct (submuns_filter d) eqn:E; [|contradiction].
    destruct H as [<-|[]]. right; right; right; right. now apply F.
Qed.


End Classification.

(** ** The console of a run *)

Section Console.

Lemma errors_console_log e w :
  is_error e = false -> errors (console_log e w) = errors w.
Proof.
  intros H. unfold errors, console_log. simpl.
  rewrite filter_app. simpl. rewrite H. apply app_nil_r.
Qed.




Lemma errors_log_stats w : errors (log_stats w) = errors w.
Proof.
  unfold log_stats.
  destruct ((count_label (db w) Province =? 0)
            || (count_label (db w) CityMunicipality =? 0)
            || (count_label (db w) Barangay =? 0)); [reflexivity|].
  cbv zeta. now rewrite !errors_console_log.
Qed.




End Console.

(** ** Runs in which calls throw *)

Section Faults.

Variable driver : nat -> Answer.

Lemma tracks_ret : tracks ret (fun s => s).
Proof. intros n w. simpl. auto. Qed.

Lemma tracks_throw g : tracks throw g.
Proof. intros n w. reflexivity. Qed.

Lemma tracks_say e : is_error e = false -> tracks (say e) (fun s => s).
Proof.
  intros H n w. simpl. split; [reflexivity|now apply errors_console_log].
Qed.

Lemma tracks_seq a b g g' :
  tracks a g -> tracks b g' -> tracks (a ;; b) (fun s => g' (g s)).
Proof.
  intros Ha Hb n w. unfold andThen. specialize (Ha n w).
  destruct (a n w) as [w1 n1|w1]; [|exact Ha].
  destruct Ha as [D E]. specialize (Hb n1 w1).
  destruct (b n1 w1) as [w2 n2|w2].
  - destruct Hb as [D' E']. split; congruence.
  - congruence.
Qed.

Lemma tracks_ext t g g' :
  (forall s, g s = g' s) -> tracks t g -> tracks t g'.
Proof.
  intros H Ht n w. specialize (Ht n w).
  destruct (t n w); [|exact Ht]. now rewrite <- H.
Qed.

Lemma tracks_runWrite f : tracks (try_runWrite driver f) f.
Proof.
  intros n w. unfold try_runWrite. destruct (driver n); simpl; auto.
Qed.

Lemma tracks_clearDatabase : tracks (try_clearDatabase driver) (fun _ => empty).
Proof.
  unfold try_clearDatabase.
  eapply tracks_ext;
    [|apply tracks_seq;
      [now apply tracks_say
      |apply tracks_seq; [apply tracks_runWrite|now apply tracks_say]]].
  reflexivity.
Qed.

Lemma tracks_index : tracks (try_index driver) (fun s => s).
Proof.
  intros n w. unfold try_index.
  destruct (driver n); (split; [reflexivity|]);
    try reflexivity; now apply errors_console_log.
Qed.

Lemma tracks_times k t : tracks t (fun s => s) -> tracks (times k t) (fun s => s).
Proof.
  intros H. induction k as [|k IH]; simpl; [apply tracks_ret|].
  apply (tracks_seq t (times k t) (fun s => s) (fun s => s) H IH).
Qed.

Lemma tracks_createIndexes : tracks (try_createIndexes driver) (fun s => s).
Proof.
  unfold try_createIndexes.
  eapply tracks_ext;
    [|apply tracks_seq;
      [now apply tracks_say
      |apply tracks_seq;
       [apply tracks_times, tracks_index|now apply tracks_say]]].
  reflexivity.
Qed.

(** [createIndexes] catches what its calls throw. *)
Lemma times_index_done k : forall n w,
  exists w', times k (try_index driver) n w = Done w' (n + k).
Proof.
  induction k as [|k IH]; intros n w; simpl.
  - exists w. unfold ret. now rewrite Nat.add_0_r.
  - unfold andThen at 1. unfold try_index at 1.
    destruct (driver n);
      match goal with |- context [times k _ (S n) ?x] =>
        destruct (IH (S n) x) as [w' E]; exists w'; rewrite E;
        f_equal; lia
      end.
Qed.

Lemma createIndexes_done n w :
  exists w', try_createIndexes driver n w = Done w' (n + 9)
             /\ db w' = db w /\ errors w' = errors w.
Proof.
  pose proof (tracks_createIndexes n w) as T.
  unfold try_createIndexes, andThen, say in *.
  destruct (times_index_done 9 n (console_log (Log "Creating indexes...") w))
    as [w1 E].
  rewrite E in *. eexists. split; [reflexivity|exact T].
Qed.

Lemma tracks_importBatch items l ps :
  tracks (try_importBatch driver items l ps)
         (fun s => create_nodes s l (map (filtered ps) items)).
Proof.
  destruct items as [|x items].
  - apply (tracks_ext ret (fun s => s)); [|apply tracks_ret].
    intros s. simpl. now rewrite create_nodes_nil.
  - apply tracks_runWrite.
Qed.

Lemma tracks_import_loop fuel : forall i items l ps what,
  length items - i <= fuel ->
  tracks (try_import_loop driver fuel i items l ps what)
         (fun s => create_nodes s l (map (filtered ps) (skipn i items))).
Proof.
  pose proof BATCH_SIZE_pos as Hb.
  induction fuel as [|fuel IH]; intros i items l ps what Hf.
  - apply (tracks_ext ret (fun s => s)); [|apply tracks_ret].
    intros s. rewrite skipn_all2 by lia. simpl. now rewrite create_nodes_nil.
  - simpl. destruct (i <? length items) eqn:Hi.
    + apply Nat.ltb_lt in Hi.
      eapply tracks_ext;
        [|apply tracks_seq;
          [apply tracks_importBatch
          |apply tracks_seq;
           [now apply tracks_say|apply IH; lia]]].
      intros s. cbv beta. rewrite slice_batch.
      rewrite create_nodes_app, <- map_app.
      rewrite Nat.add_comm, <- skipn_skipn, firstn_skipn. reflexivity.
    + apply Nat.ltb_ge in Hi.
      apply (tracks_ext ret (fun s => s)); [|apply tracks_ret].
      intros s. rewrite skipn_all2 by lia. simpl.
      now rewrite create_nodes_nil.
Qed.

Lemma tracks_import_all items l ps what :
  tracks (try_import_all driver items l ps what)
         (fun s => create_nodes s l (map (filtered ps) items)).
Proof.
  unfold try_import_all.
  eapply tracks_ext;
    [|apply tracks_seq;
      [now apply tracks_say|apply tracks_import_loop; lia]].
  reflexivity.
Qed.

Lemma tracks_step_pass p : tracks (try_step_pass driver p) (run_pass p).
Proof.
  unfold try_step_pass.
  eapply tracks_ext;
    [|apply tracks_seq; [now apply tracks_say|apply tracks_runWrite]].
  reflexivity.
Qed.

Lemma tracks_createRelationships :
  tracks (try_createRelationships driver) (run_passes all_passes).
Proof.
  unfold try_createRelationships.
  eapply tracks_ext;
    [|apply tracks_seq; [now apply tracks_say|];
      do 5 (apply tracks_seq; [apply tracks_step_pass|]);
      now apply tracks_say].
  reflexivity.
Qed.

Lemma tracks_log_stats : tracks (try_log_stats driver) (fun s => s).
Proof.
  intros n w. unfold try_log_stats. destruct (driver n); simpl; auto.
  split; [apply log_stats_db|apply errors_log_stats].
Qed.

(** The graph after the import is a function of the graph before. *)
Lemma import_data_store clearFlag data w :
  db (import_data clearFlag data w)
  = db (import_data clearFlag data {| db := db w; console := [] |}).
Proof.
  unfold import_data. cbv zeta. rewrite !log_stats_db.
  rewrite !db_console_log, !createRelationships_db, !db_console_log.
  rewrite !import_all_db, !db_console_log, !db_createIndexes.
  destruct clearFlag; [|reflexivity]. now rewrite !db_clearDatabase.
Qed.

Lemma records_some parsed data :
  records parsed = Some data <-> parsed = map Value data.
Proof.
  revert data. induction parsed as [|[|d] parsed IH]; intros data; simpl.
  - split; [intros E; now inversion E|].
    destruct data; [reflexivity|discriminate].
  - split; [discriminate|]. destruct data; discriminate.
  - destruct (records parsed) as [ds|].
    + split.
      * intros E. inversion E; subst. simpl. f_equal. now apply IH.
      * destruct data as [|d' data]; [discriminate|]. simpl.
        intros E. inversion E; subst. f_equal. f_equal.
        assert (H : Some ds = Some data) by now apply IH.
        now inversion H.
    + split; [discriminate|].
      destruct data as [|d' data]; [discriminate|]. simpl.
      intros E. inversion E; subst.
      assert (H : None = Some data) by now apply IH.
      discriminate H.
Qed.

Lemma records_Value data : records (map Value data) = Some data.
Proof. now apply records_some. Qed.

Lemma tracks_import_data clearFlag data :
  tracks (try_import_data driver clearFlag (map Value data))
         (fun s => db (import_data clearFlag data
                         {| db := s; console := [] |})).
Proof.
  unfold try_import_data. rewrite records_Value. cbv zeta.
  destruct clearFlag;
  (eapply tracks_ext;
    [|apply tracks_seq;
      [first [apply tracks_clearDatabase|apply tracks_ret]|];
      apply tracks_seq; [apply tracks_createIndexes|];
      do 5 (apply tracks_seq; [now apply tracks_say|]);
      do 5 (apply tracks_seq; [apply tracks_import_all|]);
      apply tracks_seq; [now apply tracks_say|];
      apply tracks_seq; [apply tracks_createRelationships|];
      apply tracks_seq; [now apply tracks_say|];
      apply tracks_seq; [now apply tracks_say|];
      apply tracks_log_stats]);
  intros s; cbv beta; unfold import_data; cbv zeta; rewrite log_stats_db;
  rewrite !db_console_log, createRelationships_db, db_console_log;
  rewrite !import_all_db, !db_console_log, db_createIndexes;
  rewrite ?db_clearDatabase; reflexivity.
Qed.

(** When the import ends normally every record has been imported. *)
Lemma import_data_done clearFlag parsed n w w' n' :
  try_import_data driver clearFlag parsed n w = Done w' n' ->
  exists data, parsed = map Value data
               /\ db w' = db (import_data clearFlag data w)
               /\ errors w' = errors w.
Proof.
  intros E. destruct (records parsed) as [data|] eqn:R.
  - apply records_some in R. subst parsed. exists data.
    split; [reflexivity|].
    pose proof (tracks_import_data clearFlag data n w) as T.
    rewrite E in T. rewrite import_data_store. exact T.
  - exfalso. unfold try_import_data in E. rewrite R in E.
    unfold andThen in E.
    destruct ((if clearFlag then try_clearDatabase driver else ret) n w)
      as [w1 n1|w1]; [|discriminate E].
    destruct (try_createIndexes driver n1 w1); discriminate E.
Qed.

Lemma tracks_import_data_any clearFlag parsed :
  exists g, tracks (try_import_data driver clearFlag parsed) g.
Proof.
  destruct (records parsed) as [data|] eqn:R.
  - apply records_some in R. subst parsed. eexists.
    apply tracks_import_data.
  - unfold try_import_data. rewrite R.
    destruct clearFlag; eexists;
      (apply tracks_seq;
        [first [apply tracks_clearDatabase|apply tracks_ret]|]);
      (apply tracks_seq; [apply tracks_createIndexes|]);
      apply (tracks_throw (fun s => s)).
Qed.

Lemma import_data_thrown clearFlag parsed n w w' :
  try_import_data driver clearFlag parsed n w = Thrown w' ->
  errors w' = errors w.
Proof.
  intros E. destruct (tracks_import_data_any clearFlag parsed) as [g T].
  specialize (T n w). now rewrite E in T.
Qed.

(** A [null] among the parsed lines: the throw comes after
    [clearDatabase] and [createIndexes], before anything is imported. *)
Lemma import_data_null clearFlag parsed w :
  records parsed = None ->
  exists w',
    try_import_data driver clearFlag parsed 0 w = Thrown w'
    /\ db w' = (if clearFlag
                then match driver 0 with
                     | Threw => db w
                     | _ => empty
                     end
                else db w).
Proof.
  intros R. unfold try_import_data. rewrite R.
  destruct clearFlag.
  - unfold andThen at 1. unfold try_clearDatabase, andThen at 1.
    unfold say at 1. unfold andThen at 1, try_runWrite.
    destruct (driver 0) eqn:D.
    + unfold say at 1. unfold andThen.
      match goal with |- context [try_createIndexes driver ?n ?x] =>
        destruct (createIndexes_done n x) as (w1 & E & Dw & _) end.
      rewrite E. exists w1. split; [reflexivity|]. rewrite Dw. reflexivity.
    + eexists. split; reflexivity.
    + eexists. split; reflexivity.
  - unfold andThen, ret.
    destruct (createIndexes_done 0 w) as (w1 & E & Dw & _).
    rewrite E. exists w1. split; [reflexivity|exact Dw].
Qed.



Section Healthy.

Hypothesis up : forall k, driver k = Went.

















End Healthy.

Lemma errors_failed m w :
  errors (console_log (LogError m) w) = errors w ++ [LogError m].
Proof.
  unfold errors, console_log. cbn [console]. now rewrite filter_app.
Qed.

Section MainRun.

Variable JSON_parse : Line -> option Parsed.
Variables (clearFlag : bool) (file : option (list Line)) (w : World).

Lemma main_unread :
  readJSONLFile JSON_parse file = None ->
  snd (main JSON_parse driver clearFlag file w) = ExitCode 1
  /\ db (fst (main JSON_parse driver clearFlag file w)) = db w
  /\ errors (fst (main JSON_parse driver clearFlag file w))
     = errors w ++ [LogError "Import failed:"].
Proof.
  intros R. unfold main. rewrite R. cbn [fst snd].
  split; [reflexivity|]. split; [reflexivity|].
  rewrite errors_failed. now rewrite errors_console_log.
Qed.



Lemma main_exit :
  snd (main JSON_parse driver clearFlag file w) = Completed
  \/ snd (main JSON_parse driver clearFlag file w) = ExitCode 1.
Proof.
  unfold main. destruct (readJSONLFile JSON_parse file); [|now right].
  destruct (try_import_data _ _ _ _ _) as [w2 n|w2]; [|now right].
  destruct (driver n); auto.
Qed.

Lemma main_errors :
  errors (fst (main JSON_parse driver clearFlag file w)) = errors w
  \/ errors (fst (main JSON_parse driver clearFlag file w))
     = errors w ++ [LogError "Import failed:"].
Proof.
  unfold main.
  destruct (readJSONLFile JSON_parse file) as [parsed|].
  - match goal with |- context [try_import_data _ _ _ 0 ?x] =>
      set (w1 := x) end.
    assert (E1 : errors w1 = errors w)
      by (unfold w1; now rewrite !errors_console_log).
    destruct (try_import_data driver clearFlag parsed 0 w1) as [w2 n|w2] eqn:E.
    + destruct (import_data_done clearFlag parsed 0 w1 w2 n E)
        as (data & _ & _ & Er).
      left. destruct (driver n); cbn [fst]; congruence.
    + right. cbn [fst]. rewrite errors_failed.
      rewrite (import_data_thrown clearFlag parsed 0 w1 w2 E). congruence.
  - right. cbn [fst]. rewrite errors_failed.
    now rewrite errors_console_log.
Qed.

Lemma main_null parsed :
  readJSONLFile JSON_parse file = Some parsed ->
  records parsed = None ->
  snd (main JSON_parse driver clearFlag file w) = ExitCode 1
  /\ errors (fst (main JSON_parse driver clearFlag file w))
     = errors w ++ [LogError "Import failed:"]
  /\ db (fst (main JSON_parse driver clearFlag file w))
     = (if clearFlag
        then match driver 0 with
             | Threw => db w
             | _ => empty
             end
        else db w).
Proof.
  intros R N. unfold main. rewrite R.
  match goal with |- context [try_import_data _ _ _ 0 ?x] =>
    set (w1 := x) end.
  destruct (import_data_null clearFlag parsed w1 N) as (w2 & E & D).
  rewrite E. cbn [fst snd]. split; [reflexivity|]. split.
  - rewrite errors_failed.
    rewrite (import_data_thrown clearFlag parsed 0 w1 w2 E).
    unfold w1. now rewrite !errors_console_log.
  - exact D.
Qed.

End MainRun.

End Faults.

(** ** Scenarios *)

Section Scenarios.

(** Region 03, province 014, municipality 01, barangay 007. *)
Example standard_chain :
  map row_type (hierarchy_query luzon "0301401007")
  = ["Region"; "Province"; "CityMunicipality"; "Barangay"].
Proof. reflexivity. Qed.

(** A sub-municipality sorts in the last rank, after its city. *)
Example submunicipality_chain :
  map row_type (hierarchy_query luzon "0301401500")
  = ["Region"; "Province"; "CityMunicipality"; "SubMunicipality"].
Proof. reflexivity. Qed.

Example luzon_relationships :
  map rel_type (rels luzon)
  = [HAS_PROVINCE; HAS_CITY_MUNICIPALITY; HAS_BARANGAY; HAS_SUBMUNICIPALITY;
     HAS_CITY_MUNICIPALITY].
Proof. reflexivity. Qed.

Example unknown_code : GET (Online luzon) "9999999999" = not_found.
Proof. reflexivity. Qed.

Example database_down : GET Offline "0301401007" = failed.
Proof. reflexivity. Qed.

End Scenarios.

(** * Main results *)

(** C1. Resolver correctness.  In a graph left by the importer in which
    no two entities share a code and no two Regions share a region
    segment, resolving the code of an entity that some Region reaches
    returns a sequence that starts with a Region, ends with the entity,
    has strictly increasing rank and repeats no code; when no Region
    reaches the entity the route answers not found. *)
Theorem resolver_chain : forall s e n code,
  importable s -> unique_codes s -> unique_regions s ->
  node_at s e = Some n -> code_of n = Some (VStr code) ->
  (forall r nr, node_at s r = Some nr -> label nr = Region ->
     reaches s 4 r e ->
     resolves_to_chain s code n
     /\ increasing (map sortOrder (hierarchy_nodes s code)))
  /\ ((forall r nr, node_at s r = Some nr -> label nr = Region ->
         ~ reaches s 4 r e) ->
      GET (Online s) code = not_found).
Proof.
  intros s e n code I UC UR Hn Hc.
  pose proof (importable_linked s I) as L.
  assert (Hm : match_code s code = [(e, n)]).
  { apply match_code_sole; auto. now apply (unique_codes_sole s code e n). }
  split.
  - intros r nr Hr Lr Hreach.
    destruct (shortestPath_complete s r e Hreach) as [p Hp].
    pose proof (shortestPath_sound s r e p Hp) as (W & Hhd & Hl & _).
    assert (Ex : Forall (fun i => node_at s i <> None) p).
    { apply (walk_exists s L p W). rewrite Hhd, Hr. discriminate. }
    assert (Inc : increasing (map sortOrder (path_nodes s p))).
    { rewrite (path_nodes_rank s p Ex). now apply walk_increasing. }
    assert (Hh : hierarchy_nodes s code = path_nodes s p).
    { rewrite (hierarchy_single s code e n r nr p); auto.
      - apply order_by_sorted. now apply increasing_nondecreasing.
      - intros r' m Hm' Lm Hne.
        destruct (shortestPath s r' e) as [p'|] eqn:Hp'; [|reflexivity].
        elim Hne.
        exact (reaching_region_unique s e n r nr r' m p p'
                 L UR Hn Hr Lr Hm' Lm Hp Hp'). }
    rewrite Hh. split; [|exact Inc].
    unfold resolves_to_chain. cbv zeta. unfold hierarchy_query. rewrite Hh.
    destruct p as [|x q]; [contradiction|]. simpl in Hhd. subst x.
    rewrite (path_nodes_cons s r nr q Hr) in *.
    repeat split.
    + exists nr. split; [reflexivity|exact Lr].
    + rewrite <- (path_nodes_cons s r nr q Hr).
      apply path_nodes_last; [exact Ex|discriminate|]. now rewrite Hl.
    + discriminate.
    + now apply increasing_nondecreasing.
    + rewrite map_map. rewrite <- (path_nodes_cons s r nr q Hr).
      change (fun x => row_psgc_code (row_of x)) with code_of.
      apply path_codes_NoDup; [exact UC|].
      apply (increasing_NoDup (rank_of s)). now apply walk_increasing.
  - intros Hno. apply GET_empty. unfold hierarchy_nodes. rewrite Hm.
    cbn [flat_map fst]. rewrite app_nil_r.
    rewrite flat_map_all_nil; [reflexivity|].
    intros [r nr] Hin. apply in_match_label in Hin. destruct Hin as [Hr Lr].
    specialize (Hno r nr Hr Lr). apply shortestPath_none in Hno.
    simpl. now rewrite Hno.
Qed.

(** The chain of Barangay Laog, and a city whose province is not in
    the data. *)
Lemma resolver_chain_witness :
  (resolves_to_chain
     (db (import_data true [region03; bulacan; angat; laog; ncr; manila] w0))
     "0301401007" (entity Barangay laog)
   /\ increasing
        (map sortOrder
           (hierarchy_nodes
              (db (import_data true
                     [region03; bulacan; angat; laog; ncr; manila] w0))
              "0301401007")))
  /\ GET (Online (db (import_data true [region11; davao] w0))) "1130700000"
     = not_found.
Proof.
  split.
  - assert (U1 : unique_codes
                   (db (import_data true
                          [region03; bulacan; angat; laog; ncr; manila] w0)))
      by (apply unique_codesb_sound; vm_compute; reflexivity).
    assert (U2 : unique_regions
                   (db (import_data true
                          [region03; bulacan; angat; laog; ncr; manila] w0)))
      by (apply unique_regionsb_sound; vm_compute; reflexivity).
    apply (proj1 (resolver_chain _ 5 (entity Barangay laog) "0301401007"
                    (importable_clear _ _) U1 U2 eq_refl eq_refl)
                 0 (entity Region region03) eq_refl eq_refl).
    exists [0; 2; 3; 5]. vm_compute. intuition lia.
  - assert (U1 : unique_codes (db (import_data true [region11; davao] w0)))
      by (apply unique_codesb_sound; vm_compute; reflexivity).
    assert (U2 : unique_regions (db (import_data true [region11; davao] w0)))
      by (apply unique_regionsb_sound; vm_compute; reflexivity).
    apply (proj2 (resolver_chain _ 1 (entity CityMunicipality davao)
                    "1130700000" (importable_clear _ _) U1 U2
                    eq_refl eq_refl)).
    intros r nr Hr Lr. apply shortestPath_none.
    destruct r as [|[|[|r]]]; vm_compute in Hr; try discriminate;
      injection Hr as <-; vm_compute in Lr; try discriminate.
    reflexivity.
Defined.

(** A highly urbanized city carries its own code in the province
    segment (PPP is "Province Code/HUC"), so outside region 13 no
    Province record and no statement gives it a parent: the city is in
    the graph and resolves to nothing. *)
Lemma resolver_chain_fails_for_orphan :
  node_at (db (import_data true [region11; davao] w0)) 1
  = Some (entity CityMunicipality davao)
  /\ ~ resolves_to_chain (db (import_data true [region11; davao] w0))
                          "1130700000" (entity CityMunicipality davao).
Proof.
  split; [reflexivity|].
  intros (_ & _ & H & _). apply H. vm_compute. reflexivity.
Qed.

(** C2. Tree invariant: in a freshly built graph an entity has as many
    incoming relationships as there are entities that match it as a
    parent under the five statements, hence exactly one when exactly
    one entity matches; every Region of region segment 13 is among the
    parents of every CityMunicipality of region segment 13, whatever
    Province the city also matches. *)
Theorem parents_are_candidates : forall data w i n,
  node_at (db (import_data true data w)) i = Some n ->
  in_degree (db (import_data true data w)) i
  = length (candidates (db (import_data true data w)) n)
  /\ (length (candidates (db (import_data true data w)) n) = 1 ->
      in_degree (db (import_data true data w)) i = 1)
  /\ (forall r nr,
        node_at (db (import_data true data w)) r = Some nr ->
        label nr = Region -> prop nr "region_code" = lit "13" ->
        label n = CityMunicipality -> prop n "region_code" = lit "13" ->
        In (r, nr) (candidates (db (import_data true data w)) n)).
Proof.
  intros data w i n. rewrite import_data_db. intros Hn.
  pose proof (in_degree_built data i n Hn) as E.
  split; [exact E|]. split; [intros H; congruence|].
  intros r nr Hr Lr Pr Ln Pn. unfold candidates.
  apply filter_In. split; [now apply in_indexed|].
  simpl. unfold parent_rule, rule_matches. simpl.
  rewrite Lr, Ln. simpl. unfold where_ncr. rewrite Pr, Pn.
  reflexivity.
Qed.

(** A barangay with its one city, and a town of region 13 that also
    has a province. *)
Lemma parents_are_candidates_witness :
  in_degree (db (import_data true [region03; bulacan; angat; laog] w0)) 3 = 1
  /\ In (0, entity Region ncr)
        (candidates (db (import_data true [ncr; ncr_province; ncr_town] w0))
                    (entity CityMunicipality ncr_town)).
Proof.
  split.
  - apply (proj1 (proj2 (parents_are_candidates
                           [region03; bulacan; angat; laog] w0 3
                           (entity Barangay laog) eq_refl))).
    reflexivity.
  - apply (proj2 (proj2 (parents_are_candidates
                           [ncr; ncr_province; ncr_town] w0 2
                           (entity CityMunicipality ncr_town) eq_refl)));
      reflexivity.
Defined.

(** A town of region 13 under a Province of region 13 gets two parents. *)
Lemma ncr_second_parent :
  ~ tree_invariant (db (import_data true [ncr; ncr_province; ncr_town] w0)).
Proof.
  intros H.
  specialize (H 2 (entity CityMunicipality ncr_town) eq_refl).
  assert (E : in_degree (db (import_data true [ncr; ncr_province; ncr_town] w0)) 2
              = 2) by reflexivity.
  rewrite E in H. discriminate H. discriminate.
Qed.

(** C3. NCR.  In a graph left by the importer every CityMunicipality of
    region segment 13 has a direct HAS_CITY_MUNICIPALITY relationship
    from every Region of region segment 13; when one Region only has
    that segment and the city alone carries its code, resolving the
    code yields exactly that Region followed by the city, whether or
    not the city also has a Province parent. *)
Theorem ncr_city_path : forall s r nr c nc code,
  importable s ->
  node_at s r = Some nr -> label nr = Region ->
  prop nr "region_code" = lit "13" ->
  node_at s c = Some nc -> label nc = CityMunicipality ->
  prop nc "region_code" = lit "13" ->
  In {| rel_src := r; rel_type := HAS_CITY_MUNICIPALITY; rel_dst := c |}
     (rels s)
  /\ ((forall r' m, node_at s r' = Some m -> label m = Region ->
                    prop m "region_code" = lit "13" -> r' = r) ->
      code_of nc = Some (VStr code) ->
      sole_bearer s code c ->
      hierarchy_query s code = [row_of nr; row_of nc]).
Proof.
  intros s r nr c nc code I Hr Lr Pr Hc Lc Pc.
  pose proof (importable_linked s I) as L.
  assert (He : In {| rel_src := r; rel_type := HAS_CITY_MUNICIPALITY;
                     rel_dst := c |} (rels s)).
  { apply (importable_closed s I NcrCity). apply in_pass_rels.
    exists nr, nc. repeat split; try assumption.
    unfold rule_matches. simpl. rewrite Lr, Lc. simpl.
    unfold where_ncr. rewrite Pr, Pc. reflexivity. }
  split; [exact He|]. intros Hu Hcode Hs.
  assert (Hne : r <> c) by (intros ->; congruence).
  assert (E : edge s r c).
  { apply in_succs. eexists. split; [exact He|]. split; reflexivity. }
  unfold hierarchy_query.
  rewrite (hierarchy_single s code c nc r nr [r; c]).
  - rewrite (path_nodes_cons _ r nr _ Hr), (path_nodes_cons _ c nc _ Hc).
    cbn [path_nodes flat_map order_by insert_by]. unfold sortOrder.
    rewrite Lr, Lc. reflexivity.
  - now apply match_code_sole.
  - exact Hr.
  - exact Lr.
  - now apply direct_shortest.
  - intros r' m Hm Lm Hne'.
    destruct (shortestPath s r' c) as [p|] eqn:Ep; [|reflexivity].
    exfalso. apply shortestPath_sound in Ep. destruct Ep as (W & Hh & Hl & _).
    assert (H2 : 2 <= length p).
    { apply (walk_short s); [exact W|]. rewrite Hh, Hl.
      intros ->. congruence. }
    destruct (walk_region s L p W H2) as (v & Hv1 & Hv2).
    rewrite Hh in Hv1. rewrite Hl in Hv2. unfold region_of in Hv1, Hv2.
    rewrite Hm in Hv1. rewrite Hc in Hv2.
    apply Hne'. apply (Hu r' m Hm Lm). congruence.
Qed.

(** The City of Manila under the National Capital Region, and a town
    of region 13 that also hangs off a Province. *)
Lemma ncr_city_path_witness :
  (In {| rel_src := 1; rel_type := HAS_CITY_MUNICIPALITY; rel_dst := 4 |}
      (rels (db (import_data true
                   [region03; bulacan; angat; laog; ncr; manila] w0)))
   /\ hierarchy_query
        (db (import_data true
               [region03; bulacan; angat; laog; ncr; manila] w0))
        "1380600000"
      = [row_of (entity Region ncr); row_of (entity CityMunicipality manila)])
  /\ hierarchy_query
       (db (import_data true [ncr; ncr_province; ncr_town] w0)) "1307401000"
     = [row_of (entity Region ncr); row_of (entity CityMunicipality ncr_town)].
Proof.
  split.
  - pose proof (ncr_city_path
                  (db (import_data true
                         [region03; bulacan; angat; laog; ncr; manila] w0))
                  1 (entity Region ncr) 4 (entity CityMunicipality manila)
                  "1380600000" (importable_clear _ _)
                  eq_refl eq_refl eq_refl eq_refl eq_refl eq_refl) as [H1 H2].
    split; [exact H1|]. apply H2.
    + intros r' m Hm Lm Pm.
      destruct r' as [|[|[|[|[|[|[|r']]]]]]]; vm_compute in Hm;
        try discriminate; injection Hm as <-; vm_compute in Lm, Pm;
        try discriminate; reflexivity.
    + reflexivity.
    + apply sole_bearerb_sound. vm_compute. reflexivity.
  - apply (proj2 (ncr_city_path
                    (db (import_data true [ncr; ncr_province; ncr_town] w0))
                    0 (entity Region ncr) 2 (entity CityMunicipality ncr_town)
                    "1307401000" (importable_clear _ _)
                    eq_refl eq_refl eq_refl eq_refl eq_refl eq_refl)).
    + intros r' m Hm Lm Pm.
      destruct r' as [|[|[|[|r']]]]; vm_compute in Hm;
        try discriminate; injection Hm as <-; vm_compute in Lm, Pm;
        try discriminate; reflexivity.
    + reflexivity.
    + apply sole_bearerb_sound. vm_compute. reflexivity.
Defined.

(** After the same two records are imported twice without [--clear],
    two Regions and two cities carry the codes, and resolving the
    city's code returns eight rows. *)
Lemma ncr_city_imported_twice :
  importable (db (import_data false [ncr; manila]
                    (import_data false [ncr; manila] w0)))
  /\ length (hierarchy_query
               (db (import_data false [ncr; manila]
                      (import_data false [ncr; manila] w0)))
               "1380600000") = 8
  /\ ~ ncr_cities_resolve
         (db (import_data false [ncr; manila]
                (import_data false [ncr; manila] w0))).
Proof.
  split; [|split].
  - apply importable_add, importable_add, importable_empty.
  - reflexivity.
  - intros H.
    destruct (H 0 (entity Region ncr) 1 (entity CityMunicipality manila)
                "1380600000" eq_refl eq_refl eq_refl eq_refl eq_refl eq_refl
                eq_refl) as [_ E].
    apply (f_equal (@length Row)) in E. vm_compute in E. discriminate.
Qed.

(** C4. Relationship-building is not idempotent: a second run adds
    every relationship of the first run once more, so over an entity
    set without relationships two runs leave exactly twice as many
    relationships of each type as one run; with relationships present
    before, the ones added double. *)
Theorem relationships_double :
  (forall ns c t,
     count_rels t (rels (db (createRelationships (createRelationships
        {| db := {| nodes := ns; rels := [] |}; console := c |}))))
     = 2 * count_rels t (rels (db (createRelationships
        {| db := {| nodes := ns; rels := [] |}; console := c |}))))
  /\ (forall w t,
        count_rels t (rels (db (createRelationships (createRelationships w))))
        + count_rels t (rels (db w))
        = 2 * count_rels t (rels (db (createRelationships w))))
  /\ (exists w, db (createRelationships (createRelationships w))
                <> db (createRelationships w)).
Proof.
  assert (G : forall w t,
    count_rels t (rels (db (createRelationships (createRelationships w))))
    + count_rels t (rels (db w))
    = 2 * count_rels t (rels (db (createRelationships w)))).
  { intros w t. rewrite createRelationships_twice, count_rels_app.
    rewrite createRelationships_db, run_passes_rels, count_rels_app.
    generalize (count_rels t (rels (db w))).
    generalize (count_rels t
                  (flat_map (fun p => pass_rels p (db w)) all_passes)).
    intros a b. lia. }
  split; [|split; [exact G|]].
  - intros ns c t.
    specialize (G {| db := {| nodes := ns; rels := [] |}; console := c |} t).
    cbn [db rels] in G. change (count_rels t []) with 0 in G. lia.
  - exists {| db := {| nodes := entities [ncr; manila]; rels := [] |};
              console := [] |}.
    vm_compute. discriminate.
Qed.

(** C5. Classification: a record is assigned every kind whose filter
    it satisfies, and the entity created for a record under a kind is a
    function of the record alone; a record that carries exactly one
    kind tag, with the code shape of that kind and the level SubMun
    exactly when tagged sub-municipality, is assigned exactly one kind,
    the tagged one. *)
Theorem classification_of_consistent : forall d,
  consistent d = true ->
  kinds d = [tagged_kind d]
  /\ (forall clearFlag data w, In d data ->
        In (entity (tagged_kind d) d)
           (nodes (db (import_data clearFlag data w)))).
Proof.
  intros d H.
  assert (K : kinds d = [tagged_kind d]).
  { unfold consistent, submun_level in H.
    unfold kinds, tagged_kind, regions_filter, provinces_filter, cities_filter,
      barangays_filter, submuns_filter.
    destruct (is_region d), (is_province d), (is_city_municipality d),
      (is_barangay d), (is_submunicipality d); try discriminate;
      destruct (String.eqb (province_code d) "000");
      destruct (String.eqb (municipality_code d) "00");
      destruct (String.eqb (barangay_code d) "000");
      destruct (String.eqb (geographic_level d) "SubMun");
      try discriminate; reflexivity. }
  split; [exact K|]. intros clearFlag data w Hd.
  rewrite import_data_nodes. apply in_or_app. right.
  apply in_entities; [exact Hd|]. rewrite K. now left.
Qed.

(** Barangay Laog carries the barangay tag alone. *)
Lemma classification_of_consistent_witness :
  kinds laog = [Barangay]
  /\ In (entity Barangay laog)
        (nodes (db (import_data true [region03; laog] w0))).
Proof.
  destruct (classification_of_consistent laog eq_refl) as [K I].
  split; [exact K|]. apply (I true [region03; laog] w0). simpl. auto.
Defined.

(** A district with no kind tag is assigned no kind; a record of level
    SubMun with a municipality segment, no barangay segment and no
    sub-municipality tag is assigned two. *)
Lemma classification_not_exclusive :
  (well_formed district = true /\ kinds district = [])
  /\ (well_formed tondo = true
      /\ kinds tondo = [CityMunicipality; SubMunicipality]).
Proof. repeat split. Qed.




(** C7. Not found: when no entity carries the code, or no Region
    reaches one that does, the route answers 404 with the body
    [Location not found]; a failing query is answered 500 with a
    different body; a hierarchy is only ever returned non-empty, with
    status 200, and is the complete result of the query. *)
Theorem resolver_not_found : forall s code,
  (match_code s code = [] -> GET (Online s) code = not_found)
  /\ ((forall t r, In t (match_code s code) -> In r (match_label s Region) ->
                   ~ reaches s 4 (fst r) (fst t)) ->
      GET (Online s) code = not_found)
  /\ GET Offline code = failed
  /\ not_found <> failed
  /\ (forall c,
        GET c code = not_found \/ GET c code = failed
        \/ exists s', c = Online s' /\ hierarchy_query s' code <> []
             /\ GET c code
                = {| resp_status := 200;
                     resp_body :=
                       HierarchyBody code (hierarchy_query s' code) |}).
Proof.
  intros s code.
  assert (Hnil : hierarchy_nodes s code = [] -> GET (Online s) code = not_found).
  { intros H. unfold GET, runQuery, hierarchy_query. now rewrite H. }
  repeat split.
  - intros H. apply Hnil. unfold hierarchy_nodes. now rewrite H.
  - intros H. apply Hnil. unfold hierarchy_nodes.
    rewrite flat_map_all_nil; [reflexivity|].
    intros t Ht. apply flat_map_all_nil. intros r Hr.
    specialize (H t r Ht Hr). apply shortestPath_none in H. now rewrite H.
  - discriminate.
  - intros [s'|]; [|right; left; reflexivity].
    unfold GET, runQuery.
    destruct (hierarchy_query s' code) as [|x h] eqn:E.
    + left. reflexivity.
    + right. right. exists s'. rewrite E. repeat split. discriminate.
Qed.

(** A code nobody carries, and a province without its region. *)
Lemma resolver_not_found_witness :
  GET (Online (db (import_data true [region03; bulacan] w0))) "0301401007"
  = not_found
  /\ GET (Online (db (import_data true [bulacan] w0))) "0301400000"
     = not_found.
Proof.
  split.
  - apply (proj1 (resolver_not_found _ "0301401007")). reflexivity.
  - apply (proj1 (proj2 (resolver_not_found _ "0301400000"))).
    intros t r _ Hr. vm_compute in Hr. contradiction.
Defined.

(** C8. Region self-path.  In a graph left by the importer, resolving
    the code of a Region that no other entity shares returns the
    one-element sequence made of that Region. *)
Theorem region_self_path : forall s e n code,
  importable s ->
  node_at s e = Some n ->
  label n = Region ->
  code_of n = Some (VStr code) ->
  sole_bearer s code e ->
  hierarchy_query s code = [row_of n].
Proof.
  intros s e n code I Hn Ln Hc Hs. unfold hierarchy_query.
  rewrite (hierarchy_single s code e n e n [e]).
  - rewrite (path_nodes_cons _ e n [] Hn). reflexivity.
  - now apply match_code_sole.
  - exact Hn.
  - exact Ln.
  - apply shortestPath_self.
  - intros r' m _ _ Hne.
    now apply (region_unreached s e n r' (importable_linked s I)).
Qed.

(** Region III among its province and a town. *)
Lemma region_self_path_witness :
  hierarchy_query (db (import_data true [region03; bulacan; angat] w0))
                  "0300000000"
  = [row_of (entity Region region03)].
Proof.
  apply (region_self_path _ 0 (entity Region region03) "0300000000"
           (importable_clear [region03; bulacan; angat] w0)).
  - reflexivity.
  - reflexivity.
  - reflexivity.
  - apply sole_bearerb_sound. vm_compute. reflexivity.
Defined.

(** After the same Region record is imported twice without [--clear],
    resolving its code returns both copies. *)
Lemma region_imported_twice :
  importable (db (import_data false [region03]
                    (import_data false [region03] w0)))
  /\ hierarchy_query
       (db (import_data false [region03] (import_data false [region03] w0)))
       "0300000000"
     = [row_of (entity Region region03); row_of (entity Region region03)]
  /\ ~ regions_resolve
         (db (import_data false [region03]
                (import_data false [region03] w0))).
Proof.
  split; [|split].
  - apply importable_add, importable_add, importable_empty.
  - reflexivity.
  - intros H.
    specialize (H 0 (entity Region region03) "0300000000"
                  eq_refl eq_refl eq_refl).
    vm_compute in H. discriminate.
Qed.

(** C9. Order independence: what a statement creates depends on the
    nodes only, never on relationships, so issuing the five statements
    in any order leaves the nodes untouched and yields the same
    relationships up to order as [createRelationships]. *)
Theorem passes_commute : forall order s c,
  Permutation order all_passes ->
  nodes (run_passes order s) = nodes s
  /\ Permutation (rels (run_passes order s))
                 (rels (db (createRelationships {| db := s; console := c |})))
  /\ (forall p s', nodes s' = nodes s -> pass_rels p s' = pass_rels p s).
Proof.
  intros order s c P. split; [apply run_passes_nodes|]. split.
  - rewrite createRelationships_order, !run_passes_rels.
    apply Permutation_app_head. now apply Permutation_flat_map.
  - intros p s' H. now apply pass_rels_nodes.
Qed.

(** The five statements in reverse order. *)
Lemma passes_commute_witness :
  Permutation
    (rels (run_passes (rev all_passes)
             {| nodes := entities [region03; bulacan; angat; laog; ncr; manila];
                rels := [] |}))
    (rels (db (createRelationships
             {| db := {| nodes := entities
                           [region03; bulacan; angat; laog; ncr; manila];
                         rels := [] |};
                console := [] |}))).
Proof.
  apply (passes_commute (rev all_passes)).
  apply Permutation_sym, Permutation_rev.
Defined.



(** * Further results *)

(** ** Objects and batches *)

Section Objects.

Lemma get_set_same o k v : get (set o k v) k = Some v.
Proof.
  induction o as [|[k0 w] o IH]; simpl.
  - now rewrite String.eqb_refl.
  - destruct (String.eqb k0 k) eqn:E; simpl; rewrite E; [reflexivity|exact IH].
Qed.

Lemma get_set_other o k k' v : k <> k' -> get (set o k v) k' = get o k'.
Proof.
  intros Hne. induction o as [|[k0 w] o IH]; simpl.
  - apply String.eqb_neq in Hne. now rewrite Hne.
  - destruct (String.eqb k0 k) eqn:E; simpl.
    + apply String.eqb_eq in E. subst k0.
      apply String.eqb_neq in Hne. now rewrite Hne.
    + destruct (String.eqb k0 k'); [reflexivity|exact IH].
Qed.

Lemma in_keys_set o k v k' :
  In k' (keys (set o k v)) <-> k' = k \/ In k' (keys o).
Proof.
  unfold keys. induction o as [|[k0 w] o IH]; simpl.
  - intuition.
  - destruct (String.eqb k0 k) eqn:E; simpl.
    + apply String.eqb_eq in E. subst k0. intuition.
    + rewrite IH. intuition.
Qed.

Lemma NoDup_keys_set o k v : NoDup (keys o) -> NoDup (keys (set o k v)).
Proof.
  unfold keys. induction o as [|[k0 w] o IH]; simpl; intros N.
  - constructor; [intros []|constructor].
  - inversion N as [|? ? Hn N']; subst.
    destruct (String.eqb k0 k) eqn:E; simpl.
    + constructor; assumption.
    + constructor; [|now apply IH].
      intros Hin. apply (in_keys_set o k v k0) in Hin.
      destruct Hin as [->|Hin]; [|contradiction].
      now rewrite String.eqb_refl in E.
Qed.

Lemma fold_copy_get it ps : forall acc k,
  get (fold_left (copy_prop it) ps acc) k
  = if in_dec string_dec k ps
    then match item_get it k with Some v => Some v | None => get acc k end
    else get acc k.
Proof.
  induction ps as [|p ps IH]; intros acc k; simpl; [reflexivity|].
  rewrite IH. unfold copy_prop.
  destruct (string_dec p k) as [->|Hne].
  - destruct (in_dec string_dec k ps);
      destruct (item_get it k) as [v|] eqn:E; try reflexivity.
    apply get_set_same.
  - destruct (in_dec string_dec k ps).
    + destruct (item_get it k); [reflexivity|].
      destruct (item_get it p); [now apply get_set_other|reflexivity].
    + destruct (item_get it p); [now apply get_set_other|reflexivity].
Qed.

Lemma fold_copy_keys it ps : forall acc,
  NoDup (keys acc) -> NoDup (keys (fold_left (copy_prop it) ps acc)).
Proof.
  induction ps as [|p ps IH]; intros acc N; simpl; [exact N|].
  apply IH. unfold copy_prop. destruct (item_get it p); [|exact N].
  now apply NoDup_keys_set.
Qed.

(** X1. The object [importBatch] stores for an item reads back, under
    every listed property, exactly what the item holds there, absent
    when that is null or undefined; it has no other key and no key
    twice. *)
Theorem filtered_lookup : forall ps it k,
  (In k ps -> get (filtered ps it) k = item_get it k)
  /\ (~ In k ps -> get (filtered ps it) k = None)
  /\ NoDup (keys (filtered ps it)).
Proof.
  intros ps it k.
  assert (E : get (filtered ps it) k
              = if in_dec string_dec k ps then item_get it k else None).
  { unfold filtered. change (fun acc prop => match item_get it prop with
                                             | Some v => set acc prop v
                                             | None => acc
                                             end) with (copy_prop it).
    rewrite fold_copy_get. simpl.
    destruct (in_dec string_dec k ps); [|reflexivity].
    now destruct (item_get it k). }
  split; [|split].
  - intros H. rewrite E. destruct (in_dec string_dec k ps); tauto.
  - intros H. rewrite E. destruct (in_dec string_dec k ps); tauto.
  - unfold filtered. apply (fold_copy_keys it ps []). constructor.
Qed.

(** Laog's barangay segment is stored as a Barangay property;
    [urban_rural] is not a Region property. *)
Lemma filtered_lookup_witness :
  get (filtered barangayProps (plain laog)) "barangay_code"
  = Some (VStr "007")
  /\ get (filtered regionProps (plain laog)) "urban_rural" = None.
Proof.
  split.
  - rewrite (proj1 (filtered_lookup barangayProps (plain laog)
                      "barangay_code")); [reflexivity|].
    simpl. tauto.
  - apply (proj1 (proj2 (filtered_lookup regionProps (plain laog)
                           "urban_rural"))).
    simpl. intuition discriminate.
Defined.

Lemma console_importBatch items l ps w :
  console (importBatch items l ps w) = console w.
Proof. destruct items; reflexivity. Qed.

Lemma batches_step d :
  0 < d -> (d + BATCH_SIZE - 1) / BATCH_SIZE
           = 1 + (d - BATCH_SIZE + BATCH_SIZE - 1) / BATCH_SIZE.
Proof.
  pose proof BATCH_SIZE_pos as Hb. intros Hd.
  replace (d + BATCH_SIZE - 1) with ((d - 1) + 1 * BATCH_SIZE) by lia.
  rewrite Nat.div_add by lia.
  destruct (Nat.le_gt_cases BATCH_SIZE d) as [H|H].
  - replace (d - BATCH_SIZE + BATCH_SIZE - 1) with (d - 1) by lia. lia.
  - replace (d - BATCH_SIZE + BATCH_SIZE - 1) with (BATCH_SIZE - 1) by lia.
    rewrite !Nat.div_small by lia. lia.
Qed.

Lemma import_loop_console fuel : forall i items l ps what w,
  length items - i <= fuel ->
  length (console (import_loop fuel i items l ps what w))
  = length (console w)
    + (length items - i + BATCH_SIZE - 1) / BATCH_SIZE.
Proof.
  pose proof BATCH_SIZE_pos as Hb.
  induction fuel as [|fuel IH]; intros i items l ps what w Hf.
  - cbn [import_loop]. replace (length items - i) with 0 by lia.
    rewrite Nat.div_small by lia. lia.
  - cbn [import_loop]. destruct (i <? length items) eqn:Hi.
    + apply Nat.ltb_lt in Hi. rewrite IH by lia.
      unfold console_log. cbn [console]. rewrite length_app.
      rewrite console_importBatch. cbn [length].
      rewrite (batches_step (length items - i)) by lia.
      replace (length items - (i + BATCH_SIZE))
        with (length items - i - BATCH_SIZE) by lia. lia.
    + apply Nat.ltb_ge in Hi. replace (length items - i) with 0 by lia.
      rewrite Nat.div_small by lia. lia.
Qed.

(** X2. A batch loop imports every item exactly once and in order,
    whatever the number of items: the graph afterwards is the graph
    before with one node per item appended, and the console gains the
    heading and one progress line per started batch of 500. *)
Theorem import_all_complete : forall items l ps what w,
  db (import_all items l ps what w)
  = create_nodes (db w) l (map (filtered ps) items)
  /\ length (console (import_all items l ps what w))
     = length (console w) + 1 + batches (length items).
Proof.
  intros items l ps what w. split; [apply import_all_db|].
  unfold import_all, batches. rewrite import_loop_console by lia.
  unfold console_log. cbn [console]. rewrite length_app, Nat.sub_0_r.
  cbn [length]. lia.
Qed.

End Objects.

(** ** What every imported graph satisfies *)

(** Split a conjunction of tests that holds into its conjuncts. *)
Ltac conjuncts H :=
  repeat match type of H with
         | (_ && _) = true =>
             let H' := fresh H in
             apply andb_true_iff in H; destruct H as [H H']
         end.

Section Invariants.

(** X3. With [--clear] the graph after an import depends on the data
    alone; without it the import is additive: every node keeps its
    position, the new entities follow, and every relationship that was
    there is still there. *)
Theorem import_clears_or_adds :
  (forall data w w',
     db (import_data true data w) = db (import_data true data w'))
  /\ (forall data w,
        nodes (db (import_data false data w))
        = nodes (db w) ++ entities data
        /\ (forall i n, node_at (db w) i = Some n ->
                        node_at (db (import_data false data w)) i = Some n)
        /\ (exists added, rels (db (import_data false data w))
                          = rels (db w) ++ added)).
Proof.
  split.
  - intros data w w'. now rewrite !import_data_db.
  - intros data w. split; [apply (import_data_nodes false)|]. split.
    + intros i n H. unfold node_at in *. rewrite (import_data_nodes false).
      rewrite nth_error_app1; [exact H|].
      apply nth_error_Some. congruence.
    + eexists. apply (import_data_rels false).
Qed.

Lemma import_clears_or_adds_witness :
  db (import_data true [region03; bulacan] w0)
  = db (import_data true [region03; bulacan]
          {| db := luzon; console := [] |})
  /\ node_at (db (import_data false [region11]
                    {| db := luzon; console := [] |})) 0
     = Some (entity Region region03).
Proof.
  destruct import_clears_or_adds as [C A]. split; [apply C|].
  destruct (A [region11] {| db := luzon; console := [] |}) as (_ & K & _).
  apply K. reflexivity.
Defined.

Lemma rule_matches_schema p a b :
  rule_matches p a b = true ->
  schema (label a) (pass_type p) (label b) = true.
Proof.
  unfold rule_matches. intros H. conjuncts H.
  apply label_eqb_eq in H, H1. rewrite H, H1. now destruct p.
Qed.

(** X4. In a graph left by the importer every relationship joins two
    nodes of the graph, and its type fixes their labels: HAS_PROVINCE
    goes from a Region to a Province, HAS_CITY_MUNICIPALITY from a
    Province or a Region to a CityMunicipality, HAS_BARANGAY and
    HAS_SUBMUNICIPALITY from a CityMunicipality to a Barangay and to a
    SubMunicipality. *)
Theorem relationships_follow_schema : forall s e,
  importable s -> In e (rels s) ->
  exists a b,
    node_at s (rel_src e) = Some a /\ node_at s (rel_dst e) = Some b
    /\ schema (label a) (rel_type e) (label b) = true.
Proof.
  intros s e I He.
  destruct (importable_linked s I e He) as [p Hp].
  apply in_pass_rels in Hp. destruct Hp as (a & b & Ha & Hb & R & T).
  exists a, b. repeat split; try assumption.
  rewrite T. now apply rule_matches_schema.
Qed.

Lemma relationships_follow_schema_witness :
  exists a b,
    node_at luzon 0 = Some a /\ node_at luzon 2 = Some b
    /\ schema (label a) HAS_PROVINCE (label b) = true.
Proof.
  apply (relationships_follow_schema luzon
           {| rel_src := 0; rel_type := HAS_PROVINCE; rel_dst := 2 |}
           (importable_clear _ _)).
  vm_compute. auto.
Defined.

Lemma increasing_span l :
  increasing l -> l <> [] -> hd 0 l + length l <= S (last l 0).
Proof.
  induction l as [|x l IH]; intros H Hne; [contradiction|].
  destruct l as [|y q]; [simpl; lia|].
  destruct H as [Hxy H]. specialize (IH H ltac:(discriminate)).
  change (last (x :: y :: q) 0) with (last (y :: q) 0).
  simpl in *. lia.
Qed.

Lemma rank_of_le s i : rank_of s i <= 3.
Proof.
  unfold rank_of, sortOrder. destruct (node_at s i) as [n|]; [|lia].
  destruct (label n); lia.
Qed.

Lemma last_Forall {A} (P : A -> Prop) l d :
  Forall P l -> l <> [] -> P (last l d).
Proof.
  induction 1 as [|x l Hx Hl IH]; intros Hne; [contradiction|].
  destruct l as [|y q]; [exact Hx|]. apply IH. discriminate.
Qed.

Lemma walk_length s p : linked s -> is_walk s p -> length p <= 4.
Proof.
  intros L W. pose proof (walk_increasing s L p W) as Inc.
  assert (Hne : map (rank_of s) p <> [])
    by (destruct p; [contradiction|discriminate]).
  pose proof (increasing_span _ Inc Hne) as H.
  rewrite length_map in H.
  assert (Hl : last (map (rank_of s) p) 0 <= 3).
  { apply (last_Forall (fun x => x <= 3)); [|exact Hne].
    apply Forall_forall. intros x Hx. apply in_map_iff in Hx.
    destruct Hx as (j & Hj & _). rewrite <- Hj. apply rank_of_le. }
  lia.
Qed.

(** X5. In a graph left by the importer a directed walk visits at most
    four nodes and none of them twice, so there is no cycle and the
    bound of four relationships in [shortestPath] excludes nothing: the
    search fails exactly when no walk at all leads from the one node to
    the other. *)
Theorem walks_are_short : forall s,
  importable s ->
  (forall p, is_walk s p -> length p <= 4 /\ NoDup p)
  /\ (forall r t,
        shortestPath s r t = None
        <-> ~ exists p, is_walk s p /\ hd 0 p = r /\ last p 0 = t).
Proof.
  intros s I. pose proof (importable_linked s I) as L. split.
  - intros p W. split; [exact (walk_length s p L W)|].
    apply (increasing_NoDup (rank_of s)). exact (walk_increasing s L p W).
  - intros r t. rewrite shortestPath_none. split.
    + intros H (p & W & Hh & Hl). apply H. exists p.
      repeat split; auto. pose proof (walk_length s p L W). lia.
    + intros H (p & W & Hh & Hl & _). apply H. now exists p.
Qed.

Lemma walks_are_short_witness :
  length [0; 2; 3; 5] <= 4 /\ NoDup [0; 2; 3; 5].
Proof.
  apply (proj1 (walks_are_short luzon (importable_clear _ _))).
  vm_compute. intuition lia.
Defined.

Lemma walk_one_region s p :
  linked s -> is_walk s p -> 2 <= length p ->
  exists v, Forall (fun i => region_of s i = Some v) p.
Proof.
  intros L. induction p as [|x q IH]; [contradiction|].
  destruct q as [|y q']; [simpl; lia|].
  intros [E W] _. destruct (edge_region s L x y E) as (v & Hx & Hy).
  exists v. constructor; [exact Hx|].
  destruct q' as [|z q''].
  - constructor; [exact Hy|constructor].
  - destruct (IH W) as (v' & Hv); [simpl; lia|].
    replace v with v'; [exact Hv|].
    inversion Hv; subst. congruence.
Qed.

(** X6. In a graph left by the importer a walk never leaves its
    region: all the nodes on a walk of at least one relationship carry
    the same region segment. *)
Theorem walks_stay_in_region : forall s p,
  importable s -> is_walk s p -> 2 <= length p ->
  exists v, Forall (fun i => region_of s i = Some v) p.
Proof.
  intros s p I. apply walk_one_region. now apply importable_linked.
Qed.

Lemma walks_stay_in_region_witness :
  exists v, Forall (fun i => region_of luzon i = Some v) [0; 2; 3; 5].
Proof.
  apply (walks_stay_in_region luzon [0; 2; 3; 5] (importable_clear _ _)).
  - vm_compute. intuition lia.
  - simpl. lia.
Defined.

Lemma NoDup_flat_map_disjoint {A B} (f : A -> list B) l :
  NoDup l -> (forall x, In x l -> NoDup (f x)) ->
  (forall x y b, In x l -> In y l -> In b (f x) -> In b (f y) -> x = y) ->
  NoDup (flat_map f l).
Proof.
  induction l as [|x l IH]; intros N Hf Hd; simpl; [constructor|].
  inversion N as [|? ? Hx N']; subst.
  apply NoDup_app.
  - apply Hf. now left.
  - apply IH; auto.
    + intros y Hy. apply Hf. now right.
    + intros y z b Hy Hz. apply Hd; now right.
  - intros b Hb Hb'. apply in_flat_map in Hb'.
    destruct Hb' as (y & Hy & Hby).
    assert (x = y) by (apply (Hd x y b); auto; [now left|now right]).
    subst y. contradiction.
Qed.

Lemma match_label_index s l i a b :
  In (i, a) (match_label s l) -> In (i, b) (match_label s l) -> a = b.
Proof.
  intros Ha Hb. apply in_match_label in Ha, Hb.
  destruct Ha as [Ha _], Hb as [Hb _]. congruence.
Qed.

Lemma NoDup_match_create s la lb w t : NoDup (match_create s la lb w t).
Proof.
  unfold match_create. apply NoDup_flat_map_disjoint.
  - apply NoDup_match_label.
  - intros a _. apply NoDup_flat_map_disjoint.
    + apply NoDup_match_label.
    + intros b _. destruct (w (snd a) (snd b)); repeat constructor.
      intros [].
    + intros [j b] [j' b'] e Hb Hb' He He'. simpl in He, He'.
      destruct (w (snd a) b); [|contradiction].
      destruct (w (snd a) b'); [|contradiction].
      destruct He as [<-|[]]. destruct He' as [E|[]].
      inversion E; subst j'. f_equal.
      symmetry. exact (match_label_index s lb j b' b Hb' Hb).
  - intros [i a] [i' a'] e Ha Ha' He He'.
    apply in_flat_map in He, He'.
    destruct He as ([j b] & _ & He), He' as ([j' b'] & _ & He').
    simpl in He, He'.
    destruct (w a b); [|contradiction].
    destruct (w a' b'); [|contradiction].
    destruct He as [<-|[]]. destruct He' as [E|[]].
    inversion E; subst i'. f_equal.
    first [exact (match_label_index s la i a a' Ha Ha') | symmetry; exact (match_label_index s la i a' a Ha' Ha)].
Qed.

Lemma pass_rels_disjoint s p q e :
  In e (pass_rels p s) -> In e (pass_rels q s) -> p = q.
Proof.
  intros Hp Hq. apply in_pass_rels in Hp, Hq.
  destruct Hp as (a & b & Ha & Hb & R & T).
  destruct Hq as (a' & b' & Ha' & Hb' & R' & T').
  rewrite Ha in Ha'. rewrite Hb in Hb'.
  inversion Ha'; inversion Hb'; subst a' b'.
  unfold rule_matches in R, R'.
  apply andb_true_iff in R, R'. destruct R as [R _], R' as [R' _].
  apply andb_true_iff in R, R'.
  destruct R as [La Lb], R' as [La' Lb'].
  apply label_eqb_eq in La, Lb, La', Lb'.
  destruct p, q; simpl in *; try reflexivity; congruence.
Qed.

Lemma NoDup_built_rels data : NoDup (rels (built data)).
Proof.
  unfold built. cbn [rels]. apply NoDup_flat_map_disjoint.
  - repeat constructor; simpl; intuition discriminate.
  - intros p _. apply NoDup_match_create.
  - intros p q e _ _. apply pass_rels_disjoint.
Qed.

(** X7. A graph imported with [--clear] holds no relationship twice:
    each ordered pair of nodes is joined at most once per type. *)
Theorem fresh_relationships_distinct : forall data w,
  NoDup (rels (db (import_data true data w))).
Proof.
  intros data w. rewrite import_data_db. apply NoDup_built_rels.
Qed.

End Invariants.

(** ** Counting what was imported *)

Section Counting.

Lemma label_entity l d : label (entity l d) = l.
Proof. now destruct l. Qed.

Lemma in_entities_inv data n :
  In n (entities data) ->
  exists l d, n = entity l d /\ In d data /\ filter_of l d = true.
Proof.
  unfold entities. rewrite !in_app_iff, !in_map_iff.
  intros [H|[H|[H|[H|H]]]]; destruct H as (d & <- & Hd);
    apply filter_In in Hd; destruct Hd as [Hd Hf];
    [exists Region|exists Province|exists CityMunicipality
    |exists Barangay|exists SubMunicipality]; exists d; auto.
Qed.

Lemma importable_nodes s :
  importable s -> forall n, In n (nodes s) -> exists l d, n = entity l d.
Proof.
  induction 1 as [|data w|data w _ IH]; intros n Hn.
  - contradiction.
  - rewrite import_data_nodes in Hn. simpl in Hn.
    destruct (in_entities_inv data n Hn) as (l & d & E & _). eauto.
  - rewrite import_data_nodes in Hn. apply in_app_or in Hn.
    destruct Hn as [Hn|Hn]; [now apply IH|].
    destruct (in_entities_inv data n Hn) as (l & d & E & _). eauto.
Qed.

Lemma city_type d :
  prop (entity CityMunicipality d) "type"
  = Some (VStr (if String.eqb (geographic_level d) "City"
                then "city" else "municipality")).
Proof.
  unfold prop. cbn [entity props]. unfold filtered.
  change (fun acc prop => match item_get (withType d) prop with
                          | Some v => set acc prop v
                          | None => acc
                          end) with (copy_prop (withType d)).
  rewrite fold_copy_get.
  destruct (in_dec string_dec "type" cityProps) as [_|Hn].
  - reflexivity.
  - elim Hn. unfold cityProps. simpl. tauto.
Qed.

Lemma other_type l d :
  l <> CityMunicipality -> prop (entity l d) "type" = None.
Proof.
  intros Hl. unfold prop.
  assert (E : forall ps, ~ In "type" ps ->
                get (filtered ps (plain d)) "type" = None).
  { intros ps Hn. unfold filtered.
    change (fun acc prop => match item_get (plain d) prop with
                            | Some v => set acc prop v
                            | None => acc
                            end) with (copy_prop (plain d)).
    rewrite fold_copy_get. now destruct (in_dec string_dec "type" ps). }
  destruct l; try (elim Hl; reflexivity); cbn [entity props]; apply E;
    simpl; intuition discriminate.
Qed.

Lemma filter_split_length {A} (f g : A -> bool) l :
  (forall x, In x l -> f x = negb (g x)) ->
  length (filter f l) + length (filter g l) = length l.
Proof.
  induction l as [|x l IH]; intros H; simpl; [reflexivity|].
  rewrite (H x) by now left.
  specialize (IH (fun y Hy => H y (or_intror Hy))).
  destruct (g x); simpl; lia.
Qed.

Lemma length_filter_enum {A} (f : A -> bool) l : forall k,
  length (filter (fun x => f (snd x)) (combine (seq k (length l)) l))
  = length (filter f l).
Proof.
  induction l as [|x l IH]; intros k; simpl; [reflexivity|].
  destruct (f x); simpl; now rewrite IH.
Qed.

Lemma count_label_nodes s l :
  count_label s l
  = length (filter (fun n => label_eqb (label n) l) (nodes s)).
Proof.
  unfold count_label, match_label, indexed.
  apply (length_filter_enum (fun n => label_eqb (label n) l)).
Qed.

Lemma filter_label_entities l l' (xs : list PSGCData) :
  length (filter (fun n => label_eqb (label n) l) (map (entity l') xs))
  = if label_eqb l' l then length xs else 0.
Proof.
  induction xs as [|d xs IH]; simpl.
  - now destruct (label_eqb l' l).
  - rewrite label_entity. destruct (label_eqb l' l); simpl; now rewrite IH.
Qed.

(** X8. The figures of the closing statistics are consistent with the
    import: in a graph left by the importer every CityMunicipality is
    counted either as a city or as a municipality, never as both or
    neither, and after an import with [--clear] the number of nodes of
    each label is the number of records its filter selected. *)
Theorem statistics_add_up :
  (forall s, importable s ->
     count_type s "city" + count_type s "municipality"
     = count_label s CityMunicipality)
  /\ (forall data w l,
        count_label (db (import_data true data w)) l
        = length (filter (filter_of l) data)).
Proof.
  split.
  - intros s I. unfold count_type, count_label.
    apply filter_split_length. intros [i n] Hin.
    apply in_match_label in Hin. destruct Hin as [Hn Ln].
    destruct (importable_nodes s I n (nth_error_In _ _ Hn)) as (l & d & ->).
    rewrite label_entity in Ln. subst l. cbn [snd].
    rewrite city_type.
    now destruct (String.eqb (geographic_level d) "City").
  - intros data w l. rewrite count_label_nodes, import_data_db.
    unfold built. cbn [nodes]. unfold entities.
    rewrite !filter_app, !length_app, !filter_label_entities.
    destruct l; simpl; lia.
Qed.

Lemma statistics_add_up_witness :
  count_type luzon "city" + count_type luzon "municipality"
  = count_label luzon CityMunicipality.
Proof.
  apply (proj1 statistics_add_up). apply importable_clear.
Defined.

End Counting.

(** ** Reading the data file *)

Section Reading.

Variable JSON_parse : Line -> option Parsed.

Lemma parse_all_some lines : forall data,
  parse_all JSON_parse lines = Some data
  <-> Forall2 (fun l d => JSON_parse l = Some d) lines data.
Proof.
  induction lines as [|l lines IH]; intros data; simpl.
  - split.
    + intros E. inversion E. constructor.
    + intros F. now inversion F.
  - destruct (JSON_parse l) as [d|] eqn:E.
    + destruct (parse_all JSON_parse lines) as [ds|] eqn:P.
      * split.
        -- intros H. inversion H; subst. constructor; [exact E|].
           now apply IH.
        -- intros F. inversion F as [|? d' ? ds' Hd Hds]; subst.
           apply IH in Hds. congruence.
      * split; [discriminate|].
        intros F. inversion F as [|? d' ? ds' Hd Hds]; subst.
        apply IH in Hds. discriminate.
    + split; [discriminate|].
      intros F. inversion F; subst. congruence.
Qed.

Lemma parse_all_none lines :
  parse_all JSON_parse lines = None
  <-> exists l, In l lines /\ JSON_parse l = None.
Proof.
  induction lines as [|l lines IH]; simpl.
  - split; [discriminate|]. intros (l & [] & _).
  - destruct (JSON_parse l) as [d|] eqn:E.
    + destruct (parse_all JSON_parse lines) as [ds|] eqn:P.
      * split; [discriminate|].
        intros (l' & [<-|Hin] & Hl); [congruence|].
        assert (H : Some ds = None) by (apply IH; eauto).
        discriminate H.
      * split; [|reflexivity].
        intros _. destruct (proj1 IH eq_refl) as (l' & Hin & Hl). eauto.
    + split; [|reflexivity]. intros _. exists l. auto.
Qed.

(** X9. [readJSONLFile] skips blank lines and is all or nothing: a
    line that [trim] empties may be added or removed anywhere without
    changing the result; when the read succeeds it returns one value
    per non-blank line, in order; on a file that can be read it fails
    exactly when some non-blank line does not parse. *)
Theorem blank_lines_ignored :
  (forall l1 b l2, blank b = true ->
     readJSONLFile JSON_parse (Some (l1 ++ b :: l2))
     = readJSONLFile JSON_parse (Some (l1 ++ l2)))
  /\ (forall lines data,
        readJSONLFile JSON_parse (Some lines) = Some data ->
        Forall2 (fun l d => JSON_parse l = Some d)
                (filter (fun l => negb (blank l)) lines) data)
  /\ (forall lines,
        readJSONLFile JSON_parse (Some lines) = None
        <-> exists l, In l lines /\ blank l = false
                      /\ JSON_parse l = None).
Proof.
  split; [|split].
  - intros l1 b l2 Hb. unfold readJSONLFile.
    rewrite !filter_app. simpl. now rewrite Hb.
  - intros lines data H. now apply parse_all_some.
  - intros lines. unfold readJSONLFile. rewrite parse_all_none.
    split.
    + intros (l & Hin & Hl). apply filter_In in Hin.
      destruct Hin as [Hin Hb]. apply negb_true_iff in Hb. exists l. auto.
    + intros (l & Hin & Hb & Hl). exists l. split; [|exact Hl].
      apply filter_In. split; [exact Hin|]. now rewrite Hb.
Qed.

End Reading.

(** A line of a no-break space, a byte order mark and a line
    separator between two records. *)
Lemma blank_lines_ignored_witness :
  readJSONLFile (fun _ => Some (Value laog))
    (Some ([[123; 125]] ++ [160; 65279; 8232] :: [[123; 125]]))%N
  = readJSONLFile (fun _ => Some (Value laog))
      (Some ([[123; 125]] ++ [[123; 125]]))%N
  /\ Forall2 (fun l d => (fun _ : Line => Some (Value laog)) l = Some d)
             (filter (fun l => negb (blank l))
                     [[123; 125]; []; [123; 125]]%N)
             [Value laog; Value laog].
Proof.
  split.
  - apply (proj1 (blank_lines_ignored (fun _ => Some (Value laog)))).
    reflexivity.
  - apply (proj1 (proj2 (blank_lines_ignored (fun _ => Some (Value laog))))).
    reflexivity.
Defined.

(** ** [DISTINCT] and [OPTIONAL MATCH] *)

Section Distinct.

Context {A : Type} (eqb : A -> A -> bool).
Hypothesis eqb_eq : forall x y, eqb x y = true <-> x = y.

Lemma existsb_eqb x l : existsb (eqb x) l = true <-> In x l.
Proof.
  rewrite existsb_exists. split.
  - intros (y & Hy & E). apply eqb_eq in E. now subst.
  - intros H. exists x. split; [exact H|]. now apply eqb_eq.
Qed.



Lemma distinct_from_seen l : forall seen,
  (forall x, In x l -> In x seen) -> distinct_from eqb seen l = [].
Proof.
  induction l as [|y l IH]; intros seen H; simpl; [reflexivity|].
  assert (E : existsb (eqb y) seen = true)
    by (apply existsb_eqb, H; now left).
  rewrite E. apply IH. intros x Hx. apply H. now right.
Qed.

Lemma distinct_from_app l l' : forall seen,
  (forall x, In x l' -> In x seen \/ In x l) ->
  distinct_from eqb seen (l ++ l') = distinct_from eqb seen l.
Proof.
  induction l as [|y l IH]; intros seen H; simpl.
  - apply distinct_from_seen. intros x Hx.
    destruct (H x Hx) as [Hs|[]]. exact Hs.
  - destruct (existsb (eqb y) seen) eqn:E.
    + apply IH. intros x Hx. destruct (H x Hx) as [Hs|[<-|Hl]]; auto.
      left. now apply existsb_eqb.
    + f_equal. apply IH. intros x Hx.
      destruct (H x Hx) as [Hs|[<-|Hl]]; simpl; auto.
Qed.

Lemma distinct_from_NoDup l : forall seen,
  NoDup l -> (forall x, In x l -> ~ In x seen) ->
  distinct_from eqb seen l = l.
Proof.
  induction l as [|y l IH]; intros seen N H; simpl; [reflexivity|].
  inversion N as [|? ? Hy N']; subst.
  destruct (existsb (eqb y) seen) eqn:E.
  - apply existsb_eqb in E. elim (H y (or_introl eq_refl) E).
  - f_equal. apply IH; [exact N'|].
    intros x Hx [<-|Hs]; [contradiction|]. apply (H x); [now right|exact Hs].
Qed.

Lemma length_distinct_from l : forall seen,
  length (distinct_from eqb seen l) <= length l.
Proof.
  induction l as [|y l IH]; intros seen; simpl; [lia|].
  destruct (existsb (eqb y) seen); simpl.
  - specialize (IH seen). lia.
  - specialize (IH (y :: seen)). lia.
Qed.

Lemma distinct_from_skip (v : A) {C} (zs : list C) T seen :
  In v seen ->
  distinct_from eqb seen (map (fun _ => v) zs ++ T)
  = distinct_from eqb seen T.
Proof.
  intros Hin. induction zs as [|z zs IH]; simpl; [reflexivity|].
  assert (E : existsb (eqb v) seen = true) by now apply existsb_eqb.
  now rewrite E.
Qed.

(** Rows that repeat a value in a row keep one copy of it. *)
Lemma distinct_from_repeated {B C} (f : B -> A) (ys : list C) l :
  ys <> [] -> forall seen,
  distinct_from eqb seen (flat_map (fun x => map (fun _ => f x) ys) l)
  = distinct_from eqb seen (map f l).
Proof.
  intros Hys. induction l as [|x l IH]; intros seen; simpl; [reflexivity|].
  destruct ys as [|y ys]; [contradiction|]. simpl.
  destruct (existsb (eqb (f x)) seen) eqn:E.
  - rewrite distinct_from_skip by now apply existsb_eqb. apply IH.
  - f_equal. rewrite distinct_from_skip by now left. apply IH.
Qed.

(** Rows that repeat a whole list keep its distinct values. *)
Lemma distinct_from_copies {B} (l : list A) (xs : list B) :
  xs <> [] ->
  distinct_from eqb [] (flat_map (fun _ => l) xs) = distinct_from eqb [] l.
Proof.
  intros Hxs. destruct xs as [|x xs]; [contradiction|]. simpl.
  apply distinct_from_app. intros y Hy. right.
  apply in_flat_map in Hy. now destruct Hy as (_ & _ & Hy).
Qed.

End Distinct.

(** ** The detail routes *)

Section RouteFacts.

Lemma reltype_eqb_eq a b : reltype_eqb a b = true <-> a = b.
Proof. destruct a, b; simpl; split; congruence. Qed.

Lemma end_eqb_eq a b : end_eqb a b = true <-> a = b.
Proof.
  destruct a as [t i], b as [u j]. unfold end_eqb. simpl.
  rewrite andb_true_iff, reltype_eqb_eq, Nat.eqb_eq.
  split; [intros [-> ->]; reflexivity|intros E; inversion E; auto].
Qed.

Lemma link_eqb_eq (a b : Link) : link_eqb a b = true <-> a = b.
Proof.
  destruct a as [x|], b as [y|]; simpl; try (split; congruence).
  rewrite end_eqb_eq. split; congruence.
Qed.

Lemma step_eqb_eq a b : step_eqb a b = true <-> a = b.
Proof.
  destruct a as [[t c] n], b as [[t' c'] n']. unfold step_eqb. simpl.
  rewrite !andb_true_iff, String.eqb_eq, !ovalue_eqb_eq.
  split; [intros [[-> ->] ->]; reflexivity|intros E; inversion E; auto].
Qed.


Lemma non_null_Some {A} (l : list A) : non_null (map Some l) = l.
Proof. induction l as [|x l IH]; simpl; [reflexivity|now rewrite IH]. Qed.


Lemma optional_nonempty {A} (l : list A) : optional l <> [].
Proof. destruct l; discriminate. Qed.

Lemma non_null_optional {A} (l : list A) : non_null (optional l) = l.
Proof. destruct l as [|x l]; [reflexivity|apply (non_null_Some (x :: l))]. Qed.



Lemma in_expand_out s i t l j :
  In j (expand_out s i t l)
  <-> In {| rel_src := i; rel_type := t; rel_dst := j |} (rels s)
      /\ has_label s j l = true.
Proof.
  unfold expand_out. rewrite in_map_iff. split.
  - intros (e & <- & H). apply filter_In in H. destruct H as [He H].
    apply andb_true_iff in H. destruct H as [H Hl].
    apply andb_true_iff in H. destruct H as [Hs Ht].
    apply Nat.eqb_eq in Hs. apply reltype_eqb_eq in Ht.
    destruct e; simpl in *; subst. auto.
  - intros [He Hl]. eexists. split; [|apply filter_In; split; [exact He|]].
    + reflexivity.
    + simpl. rewrite Nat.eqb_refl, Hl.
      now rewrite (proj2 (reltype_eqb_eq t t) eq_refl).
Qed.


Lemma has_label_true s j l :
  has_label s j l = true <-> exists b, node_at s j = Some b /\ label b = l.
Proof.
  unfold has_label. destruct (node_at s j) as [b|].
  - rewrite label_eqb_eq. split; [eauto|].
    intros (b' & E & H). congruence.
  - split; [discriminate|]. intros (b & E & _). discriminate.
Qed.

(** A statement is known by the type it creates and the labels it joins. *)
Lemma pass_by_ends p q :
  pass_type q = pass_type p -> pass_parent q = pass_parent p ->
  pass_child q = pass_child p -> q = p.
Proof. destruct p, q; simpl; congruence. Qed.

(** The relationship between two nodes of an imported graph is there
    exactly when its statement matches them. *)
Lemma rel_iff_rule s p i a j b :
  importable s -> node_at s i = Some a -> node_at s j = Some b ->
  label a = pass_parent p -> label b = pass_child p ->
  (In {| rel_src := i; rel_type := pass_type p; rel_dst := j |} (rels s)
   <-> pass_where p a b = true).
Proof.
  intros I Ha Hb La Lb. split.
  - intros He. destruct (importable_linked s I _ He) as [q Hq].
    apply in_pass_rels in Hq. simpl in Hq.
    destruct Hq as (a' & b' & Ha' & Hb' & R & T).
    rewrite Ha in Ha'. rewrite Hb in Hb'.
    inversion Ha'; inversion Hb'; subst a' b'.
    unfold rule_matches in R.
    apply andb_true_iff in R. destruct R as [R W].
    apply andb_true_iff in R. destruct R as [R1 R2].
    apply label_eqb_eq in R1, R2.
    assert (q = p) by (apply pass_by_ends; congruence).
    now subst q.
  - intros W. apply (importable_closed s I p). apply in_pass_rels.
    exists a, b. simpl. repeat split; auto.
    unfold rule_matches. now rewrite La, Lb, !label_eqb_refl, W.
Qed.

Lemma expand_out_rule s p i a j :
  importable s -> node_at s i = Some a -> label a = pass_parent p ->
  (In j (expand_out s i (pass_type p) (pass_child p))
   <-> exists b, node_at s j = Some b /\ label b = pass_child p
                 /\ pass_where p a b = true).
Proof.
  intros I Ha La. rewrite in_expand_out, has_label_true. split.
  - intros (He & b & Hb & Lb). exists b. repeat split; auto.
    now apply (rel_iff_rule s p i a j b I Ha Hb La Lb).
  - intros (b & Hb & Lb & W). split; [|eauto].
    now apply (rel_iff_rule s p i a j b I Ha Hb La Lb).
Qed.


Lemma path_nodes_length s l :
  (forall j, In j l -> node_at s j <> None) ->
  length (path_nodes s l) = length l.
Proof.
  induction l as [|j l IH]; intros H; [reflexivity|].
  destruct (node_at s j) as [n|] eqn:E.
  - rewrite (path_nodes_cons s j n l E). simpl. f_equal.
    apply IH. intros k Hk. apply H. now right.
  - elim (H j (or_introl eq_refl) E).
Qed.

Lemma in_match_label_code s l code i n :
  In (i, n) (match_label_code s l code)
  <-> node_at s i = Some n /\ label n = l /\ code_of n = Some (VStr code).
Proof.
  unfold match_label_code, code_of. rewrite filter_In, in_match_label.
  simpl. split.
  - intros [[H1 H2] H3]. repeat split; auto.
    apply cy_eq_true in H3. destruct H3 as (v & E & E').
    unfold lit in E'. congruence.
  - intros (H1 & H2 & H3). repeat split; auto. rewrite H3. simpl.
    apply String.eqb_refl.
Qed.

End RouteFacts.

Section RegionRoute.



End RegionRoute.

Section NodeRoute.

Lemma map_flat_map {A B C} (f : B -> C) (g : A -> list B) l :
  map f (flat_map g l) = flat_map (fun x => map f (g x)) l.
Proof.
  induction l as [|x l IH]; simpl; [reflexivity|].
  now rewrite map_app, IH.
Qed.

Lemma existsb_link x seen :
  existsb (link_eqb (Some x)) (map Some seen) = existsb (end_eqb x) seen.
Proof.
  induction seen as [|y seen IH]; simpl; [reflexivity|]. now rewrite IH.
Qed.

(** Dropping the nulls after [DISTINCT] leaves the distinct ends. *)
Lemma non_null_distinct l : forall seen,
  non_null (distinct_from link_eqb (map Some seen) (map Some l))
  = distinct_from end_eqb seen l.
Proof.
  induction l as [|x l IH]; intros seen; simpl; [reflexivity|].
  rewrite existsb_link. destruct (existsb (end_eqb x) seen).
  - apply IH.
  - simpl. f_equal. apply (IH (x :: seen)).
Qed.

Lemma clean_optional s (f : Rel -> RelType * nat) (l : list Rel) :
  clean s (distinct link_eqb (map (option_map f) (optional l)))
  = map (neighbour s) (distinct end_eqb (map f l)).
Proof.
  unfold clean. f_equal. destruct l as [|e l]; [reflexivity|].
  unfold optional. rewrite map_map.
  change (map (fun x => option_map f (Some x)) (e :: l))
    with (map (fun x => Some (f x)) (e :: l)).
  rewrite <- (map_map f Some). apply (non_null_distinct (map f (e :: l)) []).
Qed.

Lemma clean_parents s i :
  clean s (distinct link_eqb
             (map (fun row => parent_link (fst row)) (node_rows s i)))
  = map (neighbour s) (distinct end_eqb (links_in s i)).
Proof.
  unfold node_rows. rewrite map_flat_map.
  rewrite (flat_map_ext _ (fun r => map (fun _ => parent_link r)
                                        (optional (outgoing s i))))
    by (intros r; now rewrite map_map).
  unfold distinct.
  rewrite (distinct_from_repeated link_eqb link_eqb_eq parent_link
             (optional (outgoing s i)) (optional (incoming s i))
             (optional_nonempty _) []).
  apply (clean_optional s (fun e => (rel_type e, rel_src e))).
Qed.

Lemma clean_children s i :
  clean s (distinct link_eqb
             (map (fun row => child_link (snd row)) (node_rows s i)))
  = map (neighbour s) (distinct end_eqb (links_out s i)).
Proof.
  unfold node_rows. rewrite map_flat_map.
  rewrite (flat_map_ext _ (fun _ => map child_link
                                        (optional (outgoing s i))))
    by (intros r; now rewrite map_map).
  unfold distinct.
  rewrite (distinct_from_copies link_eqb link_eqb_eq
             (map child_link (optional (outgoing s i)))
             (optional (incoming s i)) (optional_nonempty _)).
  apply (clean_optional s (fun e => (rel_type e, rel_dst e))).
Qed.

Lemma NoDup_links_in s i : NoDup (rels s) -> NoDup (links_in s i).
Proof.
  intros N. unfold links_in, incoming.
  apply NoDup_map_NoDup_ForallPairs; [|now apply NoDup_filter].
  intros e e' He He' E.
  apply filter_In in He, He'. destruct He as [_ He], He' as [_ He'].
  apply Nat.eqb_eq in He, He'.
  destruct e, e'; simpl in *. inversion E. congruence.
Qed.

Lemma NoDup_links_out s i : NoDup (rels s) -> NoDup (links_out s i).
Proof.
  intros N. unfold links_out, outgoing.
  apply NoDup_map_NoDup_ForallPairs; [|now apply NoDup_filter].
  intros e e' He He' E.
  apply filter_In in He, He'. destruct He as [_ He], He' as [_ He'].
  apply Nat.eqb_eq in He, He'.
  destruct e, e'; simpl in *. inversion E. congruence.
Qed.

Lemma node_GET_found s message code i n rest :
  match_code s code = (i, n) :: rest ->
  node_GET (Online s) message code
  = {| status_of := 200;
       body_of := NodeOk
         {| nd_node := props n;
            nd_type := label_name (label n);
            nd_parents := map (neighbour s) (distinct end_eqb (links_in s i));
            nd_children :=
              map (neighbour s) (distinct end_eqb (links_out s i));
            nd_hierarchy := node_hierarchy s code;
            nd_parentCount := length (distinct end_eqb (links_in s i));
            nd_childCount := length (distinct end_eqb (links_out s i)) |} |}.
Proof.
  intros H. unfold node_GET, runQuery, nodeData. rewrite H.
  cbn [map fst snd]. rewrite clean_parents, clean_children.
  now rewrite !length_map.
Qed.

(** X11. The node route: a code no node carries is answered 404;
    otherwise the first node that carries it is described, its parents
    being the distinct (type, source) pairs of its incoming
    relationships and its children the distinct (type, target) pairs
    of its outgoing ones, each in the order of first occurrence.
    [parentCount] never exceeds the number of incoming relationships
    and equals it when the graph holds no relationship twice. *)
Theorem node_route_neighbours : forall s message code,
  (match_code s code = [] ->
   node_GET (Online s) message code
   = {| status_of := 404; body_of := NodeNotFound "Node not found" |})
  /\ (forall i n rest,
        match_code s code = (i, n) :: rest ->
        exists d,
          node_GET (Online s) message code
          = {| status_of := 200; body_of := NodeOk d |}
          /\ nd_node d = props n
          /\ nd_type d = label_name (label n)
          /\ nd_parents d
             = map (neighbour s) (distinct end_eqb (links_in s i))
          /\ nd_children d
             = map (neighbour s) (distinct end_eqb (links_out s i))
          /\ nd_parentCount d = length (nd_parents d)
          /\ nd_childCount d = length (nd_children d)
          /\ nd_parentCount d <= in_degree s i
          /\ (NoDup (rels s) ->
              nd_parentCount d = in_degree s i
              /\ nd_childCount d = length (outgoing s i))).
Proof.
  intros s message code. split.
  - intros H. unfold node_GET, runQuery, nodeData. now rewrite H.
  - intros i n rest H. eexists. split; [apply (node_GET_found _ _ _ _ _ _ H)|].
    cbn [nd_node nd_type nd_parents nd_children nd_parentCount nd_childCount].
    rewrite !length_map.
    assert (Li : length (links_in s i) = in_degree s i)
      by (unfold links_in, incoming, in_degree; apply length_map).
    assert (Lo : length (links_out s i) = length (outgoing s i))
      by (unfold links_out; apply length_map).
    repeat split.
    + rewrite <- Li.
      apply (length_distinct_from end_eqb (links_in s i) []).
    + unfold distinct.
      rewrite (distinct_from_NoDup end_eqb end_eqb_eq (links_in s i) []);
        [exact Li|now apply NoDup_links_in|intros x _ []].
    + unfold distinct.
      rewrite (distinct_from_NoDup end_eqb end_eqb_eq (links_out s i) []);
        [exact Lo|now apply NoDup_links_out|intros x _ []].
Qed.

Lemma node_route_neighbours_witness :
  node_GET (Online luzon) "" "9999999999"
  = {| status_of := 404; body_of := NodeNotFound "Node not found" |}
  /\ exists d,
       node_GET (Online luzon) "" "0301401000"
       = {| status_of := 200; body_of := NodeOk d |}
       /\ nd_parentCount d = in_degree luzon 3.
Proof.
  pose proof (node_route_neighbours luzon "" "9999999999") as [H404 _].
  pose proof (node_route_neighbours luzon "" "0301401000") as [_ H200].
  split; [apply H404; reflexivity|].
  destruct (H200 3 (entity CityMunicipality angat) [] eq_refl)
    as (d & E & _ & _ & _ & _ & _ & _ & _ & N).
  exists d. split; [exact E|]. apply N.
  unfold luzon. rewrite import_data_db. apply NoDup_built_rels.
Defined.

Lemma exists_pattern_none s r t :
  exists_pattern s r t = false -> shortestPath s r t = None.
Proof.
  unfold exists_pattern, shortestPath. intros H.
  apply first_path_none. intros k Hk.
  destruct (paths s k r t) as [|p ps] eqn:E; [reflexivity|].
  assert (T : existsb (fun k => match paths s k r t with
                                | [] => false | _ => true end) (seq 0 5)
              = true).
  { apply existsb_exists. exists k. split; [exact Hk|]. now rewrite E. }
  congruence.
Qed.

Lemma flat_map_optional {A B} (F : A -> list B) l :
  flat_map (fun o => match o with Some r => F r | None => [] end)
           (optional l)
  = flat_map F l.
Proof.
  destruct l as [|x l]; [reflexivity|]. unfold optional.
  generalize (x :: l). intros xs.
  induction xs as [|y xs IH]; simpl; [reflexivity|]. now rewrite IH.
Qed.

Lemma flat_map_filter_nil {A B} (F : A -> list B) Q l :
  (forall x, In x l -> Q x = false -> F x = []) ->
  flat_map F (filter Q l) = flat_map F l.
Proof.
  induction l as [|x l IH]; intros H; simpl; [reflexivity|].
  destruct (Q x) eqn:E; simpl.
  - f_equal. apply IH. intros y Hy. apply H. now right.
  - rewrite (H x (or_introl eq_refl) E). simpl.
    apply IH. intros y Hy. apply H. now right.
Qed.

Lemma node_hierarchy_nodes s code :
  node_hierarchy s code
  = distinct step_eqb (map step_of (hierarchy_nodes s code)).
Proof.
  unfold node_hierarchy, hierarchy_nodes.
  apply f_equal. apply f_equal. apply f_equal.
  apply flat_map_ext. intros target.
  rewrite (flat_map_optional
             (fun r : nat * Node =>
                match shortestPath s (fst r) (fst target) with
                | Some p => path_nodes s p
                | None => []
                end)).
  apply flat_map_filter_nil. intros x _ HQ.
  apply orb_false_iff in HQ. destruct HQ as [HQ _].
  now rewrite (exists_pattern_none _ _ _ HQ).
Qed.

Lemma hierarchy_nodes_not_found s code :
  hierarchy_nodes s code = [] <-> GET (Online s) code = not_found.
Proof.
  split; [apply GET_empty|].
  unfold GET, runQuery, hierarchy_query.
  destruct (hierarchy_nodes s code) as [|n l]; [reflexivity|].
  simpl. discriminate.
Qed.

(** X12. The second query of the node route finds the nodes the
    hierarchy route finds: its [OPTIONAL MATCH ... WHERE EXISTS] keeps
    every Region from which a shortest path exists, so [hierarchy] is
    the distinct (type, code, name) triples of the hierarchy route's
    rows, in their order.  It is empty exactly when the hierarchy
    route answers 404; then the node route still answers 200 for a
    code that a node carries. *)
Theorem node_route_hierarchy : forall s code,
  node_hierarchy s code
  = distinct step_eqb (map step_of (hierarchy_nodes s code))
  /\ (node_hierarchy s code = [] <-> GET (Online s) code = not_found)
  /\ (forall message i n rest,
        match_code s code = (i, n) :: rest ->
        GET (Online s) code = not_found ->
        exists d,
          node_GET (Online s) message code
          = {| status_of := 200; body_of := NodeOk d |}
          /\ nd_hierarchy d = []).
Proof.
  intros s code.
  assert (E : node_hierarchy s code = [] <-> hierarchy_nodes s code = []).
  { rewrite node_hierarchy_nodes. split.
    - destruct (hierarchy_nodes s code) as [|n l]; [reflexivity|].
      discriminate.
    - intros ->. reflexivity. }
  split; [apply node_hierarchy_nodes|]. split.
  - rewrite E. apply hierarchy_nodes_not_found.
  - intros message i n rest H G. eexists.
    split; [apply (node_GET_found _ _ _ _ _ _ H)|].
    cbn [nd_hierarchy]. apply E. now apply hierarchy_nodes_not_found.
Qed.

Lemma node_route_hierarchy_witness :
  exists d,
    node_GET (Online (db (import_data true [region11; davao] w0))) ""
             "1130700000"
    = {| status_of := 200; body_of := NodeOk d |}
    /\ nd_hierarchy d = [].
Proof.
  pose proof (node_route_hierarchy
                (db (import_data true [region11; davao] w0)) "1130700000")
    as (_ & _ & H).
  apply (H "" 1 (entity CityMunicipality davao) []); reflexivity.
Defined.

Lemma node_at_createRelationships w i :
  node_at (db (createRelationships w)) i = node_at (db w) i.
Proof.
  unfold node_at. now rewrite createRelationships_db, run_passes_nodes.
Qed.







End NodeRoute.

Section ProvinceRoute.

Lemma NoDup_expand_out s i t l : NoDup (rels s) -> NoDup (expand_out s i t l).
Proof.
  intros N. unfold expand_out.
  apply NoDup_map_NoDup_ForallPairs; [|now apply NoDup_filter].
  intros e e' He He' E.
  apply filter_In in He, He'. destruct He as [_ He], He' as [_ He'].
  apply andb_true_iff in He, He'. destruct He as [He _], He' as [He' _].
  apply andb_true_iff in He, He'.
  destruct He as [Hs Ht], He' as [Hs' Ht'].
  apply Nat.eqb_eq in Hs, Hs'. apply reltype_eqb_eq in Ht, Ht'.
  destruct e, e'; simpl in *. congruence.
Qed.

Lemma has_label_createRelationships w i l :
  has_label (db (createRelationships w)) i l = has_label (db w) i l.
Proof. unfold has_label. now rewrite node_at_createRelationships. Qed.

Lemma match_label_code_createRelationships w l code :
  match_label_code (db (createRelationships w)) l code
  = match_label_code (db w) l code.
Proof.
  unfold match_label_code, match_label, indexed.
  now rewrite createRelationships_db, run_passes_nodes.
Qed.

Lemma path_nodes_createRelationships w p :
  path_nodes (db (createRelationships w)) p = path_nodes (db w) p.
Proof.
  unfold path_nodes. apply flat_map_ext. intros i.
  now rewrite node_at_createRelationships.
Qed.

Lemma expand_out_fresh_rerun data w i t l :
  expand_out (db (createRelationships (import_data true data w))) i t l
  = expand_out (db (import_data true data w)) i t l
    ++ expand_out (db (import_data true data w)) i t l.
Proof.
  unfold expand_out.
  rewrite (filter_ext _ (fun e => (rel_src e =? i)
             && reltype_eqb (rel_type e) t
             && has_label (db (import_data true data w)) (rel_dst e) l))
    by (intros e; now rewrite has_label_createRelationships).
  rewrite createRelationships_db, run_passes_rels, filter_app, map_app.
  f_equal. f_equal. f_equal.
  rewrite import_data_db. unfold built. cbn [rels].
  apply flat_map_ext. intros p. now apply pass_rels_nodes.
Qed.

(** X14. The province route collects its cities without [DISTINCT].
    After an import with [--clear] it lists, each once, exactly the
    CityMunicipalities with the Province's region and province
    segments and a non-zero municipality segment; after
    [createRelationships] has run once more every city is listed
    twice and [count] is doubled. *)
Theorem province_route_counts : forall data w code p np rest,
  match_label_code (db (import_data true data w)) Province code
  = (p, np) :: rest ->
  exists cs,
    province_GET (Online (db (import_data true data w))) code
    = {| status_of := 200;
         body_of := ProvinceDetail (props np)
                      (path_nodes (db (import_data true data w)) cs)
                      (length cs) |}
    /\ NoDup cs
    /\ (forall j, In j cs <->
          exists nj, node_at (db (import_data true data w)) j = Some nj
                     /\ label nj = CityMunicipality
                     /\ where_province_city np nj = true)
    /\ province_GET
         (Online (db (createRelationships (import_data true data w)))) code
       = {| status_of := 200;
            body_of := ProvinceDetail (props np)
                         (path_nodes (db (import_data true data w))
                                     (cs ++ cs))
                         (2 * length cs) |}.
Proof.
  intros data w code p np rest H.
  set (s := db (import_data true data w)) in *.
  assert (I : importable s) by apply importable_clear.
  assert (Hin : In (p, np) (match_label_code s Province code))
    by (rewrite H; now left).
  apply in_match_label_code in Hin. destruct Hin as (Hp & Lp & _).
  set (cs := expand_out s p HAS_CITY_MUNICIPALITY CityMunicipality).
  assert (R : forall j, In j cs <->
            exists nj, node_at s j = Some nj /\ label nj = CityMunicipality
                       /\ where_province_city np nj = true)
    by (intros j; exact (expand_out_rule s ProvinceCity p np j I Hp Lp)).
  assert (L : forall l, (forall j, In j l -> In j cs) ->
            length (path_nodes s l) = length l).
  { intros l Hl. apply path_nodes_length. intros j Hj.
    apply Hl, R in Hj. destruct Hj as (nj & E & _). rewrite E. discriminate. }
  exists cs. split; [|split; [|split]].
  - unfold province_GET, runQuery, provinceData. rewrite H.
    cbn [map fst snd]. rewrite non_null_optional. fold cs.
    unfold truthy_nodes. now rewrite L.
  - unfold cs. apply NoDup_expand_out. unfold s. rewrite import_data_db.
    apply NoDup_built_rels.
  - exact R.
  - unfold province_GET, runQuery, provinceData.
    rewrite match_label_code_createRelationships. fold s. rewrite H.
    cbn [map fst snd]. rewrite non_null_optional.
    unfold truthy_nodes, s.
    rewrite expand_out_fresh_rerun, path_nodes_createRelationships.
    fold s. fold cs.
    rewrite L.
    + rewrite length_app.
      replace (length cs + length cs) with (2 * length cs) by lia.
      reflexivity.
    + intros j Hj. apply in_app_or in Hj. tauto.
Qed.

Lemma province_route_counts_witness :
  exists cs,
    province_GET (Online luzon) "0301400000"
    = {| status_of := 200;
         body_of := ProvinceDetail (props (entity Province bulacan))
                      (path_nodes luzon cs) (length cs) |}
    /\ NoDup cs.
Proof.
  destruct (province_route_counts
              [region03; bulacan; angat; laog; angat_district; ncr; manila]
              w0 "0301400000" 2 (entity Province bulacan) [] eq_refl)
    as (cs & E & N & _).
  exists cs. split; [exact E|exact N].
Defined.

End ProvinceRoute.

Section CityRoute.



End CityRoute.

Section BarangayRoute.





End BarangayRoute.

Section SearchRoute.

Variable CONTAINS : option value -> string -> bool.

Lemma filtered_absent ps it k : ~ In k ps -> get (filtered ps it) k = None.
Proof.
  intros H. unfold filtered.
  change (fun acc prop => match item_get it prop with
                          | Some v => set acc prop v
                          | None => acc
                          end) with (copy_prop it).
  rewrite fold_copy_get. destruct (in_dec string_dec k ps); [tauto|].
  reflexivity.
Qed.

Lemma filtered_present ps it k :
  In k ps -> get (filtered ps it) k = item_get it k.
Proof.
  intros H. unfold filtered.
  change (fun acc prop => match item_get it prop with
                          | Some v => set acc prop v
                          | None => acc
                          end) with (copy_prop it).
  rewrite fold_copy_get. destruct (in_dec string_dec k ps); [|tauto].
  now destruct (item_get it k).
Qed.

Lemma entity_city_municipality l d :
  prop (entity l d) "city_municipality" = None.
Proof.
  unfold prop. destruct l; simpl props; apply filtered_absent;
    simpl; intuition discriminate.
Qed.

(** X17. The query that fetches the results of a search restricted to
    type [city] or [municipality] matches nothing on a graph left by
    the importer, whatever the query string: it tests the property
    [city_municipality], which no imported node has, where the
    importer writes [type]. *)
Theorem typed_city_search_empty : forall s query typeFilter,
  importable s ->
  city_matches CONTAINS s query typeFilter = []
  /\ (forall i n, node_at s i = Some n -> label n = CityMunicipality ->
        prop n "city_municipality" = None
        /\ exists t, prop n "type" = Some (VStr t)
                     /\ (t = "city" \/ t = "municipality")).
Proof.
  intros s query typeFilter I.
  assert (P : forall i n, node_at s i = Some n ->
            prop n "city_municipality" = None).
  { intros i n Hn. apply nth_error_In in Hn.
    destruct (importable_nodes s I n Hn) as (l & d & ->).
    apply entity_city_municipality. }
  assert (E : city_matches CONTAINS s query typeFilter = []).
  { unfold city_matches.
    destruct (filter _ (match_label s CityMunicipality))
      as [|[i n] rest] eqn:F; [reflexivity|].
    assert (Hin : In (i, n) ((i, n) :: rest)) by now left.
    rewrite <- F in Hin. apply filter_In in Hin. destruct Hin as [Hm Hf].
    apply in_match_label in Hm. destruct Hm as [Hn _]. cbn [snd] in Hf.
    rewrite (P i n Hn), andb_false_r in Hf. discriminate Hf. }
  split; [exact E|].
  intros i n Hn L. split; [exact (P i n Hn)|].
  apply nth_error_In in Hn.
  destruct (importable_nodes s I n Hn) as (l & d & ->).
  rewrite label_entity in L. subst l.
  exists (if String.eqb (geographic_level d) "City"
          then "city" else "municipality").
  split.
  - unfold prop. simpl props. rewrite filtered_present; [reflexivity|].
    simpl. tauto.
  - destruct (String.eqb (geographic_level d) "City"); auto.
Qed.

End SearchRoute.

Lemma typed_city_search_empty_witness :
  city_matches (fun _ _ => true) luzon "a" "city" = []
  /\ prop (entity CityMunicipality manila) "type" = Some (VStr "city").
Proof.
  destruct (typed_city_search_empty (fun _ _ => true) luzon "a" "city"
              (importable_clear _ _)) as (E & _).
  split; [exact E|]. vm_compute. reflexivity.
Defined.

Section MainFacts.

Variable JSON_parse : Line -> option Parsed.
Variable driver : nat -> Answer.

(** X18. [main] reads the whole file before it writes, and it clears
    before it looks at the records.  When the file cannot be read or a
    non-blank line does not parse, the database is left as it was,
    even under [--clear].  When a line parses to [null], the run ends
    with [Import failed:] and exit code 1 after [clearDatabase]:
    nothing is imported, and under [--clear] the database is left
    empty unless the clearing call itself threw without effect.
    However the run ends, the exit is normal or code 1, and at most
    the one [Import failed:] is written with [console.error]. *)
Theorem main_reads_before_writing : forall clearFlag file w,
  (readJSONLFile JSON_parse file = None ->
   db (fst (main JSON_parse driver clearFlag file w)) = db w
   /\ snd (main JSON_parse driver clearFlag file w) = ExitCode 1)
  /\ (forall parsed,
        readJSONLFile JSON_parse file = Some parsed ->
        In Null parsed ->
        snd (main JSON_parse driver clearFlag file w) = ExitCode 1
        /\ errors (fst (main JSON_parse driver clearFlag file w))
           = errors w ++ [LogError "Import failed:"]
        /\ db (fst (main JSON_parse driver clearFlag file w))
           = (if clearFlag
              then match driver 0 with
                   | Threw => db w
                   | _ => empty
                   end
              else db w))
  /\ (snd (main JSON_parse driver clearFlag file w) = Completed
      \/ snd (main JSON_parse driver clearFlag file w) = ExitCode 1)
  /\ (errors (fst (main JSON_parse driver clearFlag file w)) = errors w
      \/ errors (fst (main JSON_parse driver clearFlag file w))
         = errors w ++ [LogError "Import failed:"]).
Proof.
  intros clearFlag file w. split; [|split; [|split]].
  - intros R.
    destruct (main_unread driver JSON_parse clearFlag file w R)
      as (X & D & _).
    auto.
  - intros parsed R N.
    apply (main_null driver JSON_parse clearFlag file w parsed R).
    destruct (records parsed) as [data|] eqn:E; [|reflexivity].
    apply records_some in E. subst parsed.
    apply in_map_iff in N. destruct N as (d & Hd & _). discriminate Hd.
  - apply main_exit.
  - apply main_errors.
Qed.

End MainFacts.

(** A line that does not parse, and a line that parses to [null], on
    a database that holds the sample graph. *)
Lemma main_reads_before_writing_witness :
  db (fst (main (fun _ => None) (fun _ => Went) true (Some [[123]%N])
                {| db := luzon; console := [] |}))
  = luzon
  /\ db (fst (main (fun _ => Some Null) (fun _ => Went) true
                   (Some [[110; 117; 108; 108]%N])
                   {| db := luzon; console := [] |}))
     = empty.
Proof.
  destruct (main_reads_before_writing (fun _ => None) (fun _ => Went) true
              (Some [[123]%N]) {| db := luzon; console := [] |})
    as [F _].
  destruct (main_reads_before_writing (fun _ => Some Null) (fun _ => Went)
              true (Some [[110; 117; 108; 108]%N])
              {| db := luzon; console := [] |})
    as (_ & G & _).
  split.
  - apply F. reflexivity.
  - destruct (G [Null] eq_refl (or_introl eq_refl)) as (_ & _ & D).
    exact D.
Defined.
